(** * outline_repo.py: the scanning and aggregation engine

    A shallow embedding of [src/outline_repo.py]: the byte-size formatters
    [human_size] and [human_readable], the depth-bounded tree renderer
    [scan_tree] and the aggregator [gather_stats], over an explicit model of
    the directory tree they read.

    Conventions.
    - Python [int] is [Z]; dictionaries that are only looked up are [gmap],
      the exclusion set is a [gset string]; dictionaries and lists whose
      iteration order is observable ([folder_sizes], [lang_counts],
      [file_sizes], the rendered lines) are lists in insertion order.
    - Strings are byte strings (UTF-8): the box-drawing glyphs of the
      renderer are three bytes each.  [str.lower] is the lower-casing of
      the interpreter's Unicode tables: it is a parameter of the model, of
      which only what it does on ASCII strings is known.
    - Paths are POSIX paths; a relative path is the list of its parts.
    - A filesystem call that raises is an [option] that is [None]; each
      [try]/[except] of the source is the [match] on it.  [is_file] and
      [is_dir] of [pathlib] return [False] when [stat] fails with [ENOENT],
      [ENOTDIR], [EBADF] or [ELOOP] and raise on any other [OSError];
      [DirEntry.is_dir] inside [os.walk] never raises.
    - The tree is read as it stands: it does not change during a scan, and
      it has no symbolic link to a directory, so that [os.walk] and
      [iterdir] see the same directories.
    - [float] is IEEE-754 binary64, through the executable specification of
      [SpecFloat]; [Path.suffix] is the part of the name from its last dot
      on, empty when that dot is the first or the last character. *)

From Stdlib Require Import ZArith String Ascii DecimalString.
From Stdlib Require Import Floats.SpecFloat.
From stdpp Require Import gmap strings list sorting.
From Equations Require Import Equations.

Local Open Scope Z_scope.

(** ** Python strings *)

Module PyStr.

(** [c.lower()] for an ASCII character: only the capitals change. *)
Definition lower_ascii (c : ascii) : ascii :=
  let n := nat_of_ascii c in
  if ((65 <=? n) && (n <=? 90))%nat then ascii_of_nat (n + 32) else c.

(** [s.lower()] for a string [s] of ASCII characters. *)
Fixpoint ascii_lower (s : string) : string :=
  match s with
  | EmptyString => EmptyString
  | String c s' => String (lower_ascii c) (ascii_lower s')
  end.

(** [s.isascii()]: every byte is below 128. *)
Fixpoint isascii (s : string) : bool :=
  match s with
  | EmptyString => true
  | String c s' => (nat_of_ascii c <? 128)%nat && isascii s'
  end.

(** [s.rfind(c)], with [None] for Python's [-1]. *)
Fixpoint rfind (c : ascii) (s : string) : option nat :=
  match s with
  | EmptyString => None
  | String a s' =>
      match rfind c s' with
      | Some i => Some (S i)
      | None => if Ascii.eqb a c then Some 0%nat else None
      end
  end.

(** [s[i:]] *)
Definition slice_from (i : nat) (s : string) : string :=
  substring i (String.length s - i) s.

(** ["/".join(parts)] *)
Definition join (sep : string) (parts : list string) : string :=
  String.concat sep parts.

(** [s.startswith(p)] *)
Definition startswith (p s : string) : bool := String.prefix p s.

(** [c in s] for a single character [c]. *)
Fixpoint contains (c : ascii) (s : string) : bool :=
  match s with
  | EmptyString => false
  | String a s' => Ascii.eqb a c || contains c s'
  end.

(** Truthiness of a string: the empty string is falsy. *)
Definition truthy (s : string) : bool :=
  match s with EmptyString => false | _ => true end.

End PyStr.

(** ** The interpreter *)

(** [str.lower] lower-cases by the Unicode tables of the interpreter, which
    the model leaves open: [lower] is any function that does on ASCII
    strings what [str.lower] does there. *)
Class Interpreter : Type := {
  lower : string → string;
  lower_isascii : ∀ s, PyStr.isascii s = true → lower s = PyStr.ascii_lower s }.

(** An interpreter that leaves every character outside ASCII as it is. *)
Definition ascii_only : Interpreter :=
  {| lower := PyStr.ascii_lower; lower_isascii := λ _ _, eq_refl |}.

(** ** pathlib: pure path operations *)

Module PurePath.

(** [PurePosixPath.suffix] of a final component:
    [i = name.rfind('.')]; [name[i:]] if [0 < i < len(name) - 1], else ['']. *)
Definition suffix (name : string) : string :=
  match PyStr.rfind "." name with
  | Some i =>
      if ((0 <? i) && (i + 1 <? String.length name))%nat
      then PyStr.slice_from i name else ""
  | None => ""
  end.

(** [as_posix()] of the path made of [parts], and [str] of a relative
    POSIX path, for a non-empty list of parts. *)
Definition as_posix (parts : list string) : string := PyStr.join "/" parts.

End PurePath.

(** ** Python floats *)

(** A Python [float] is an IEEE 754 binary64 number: the executable
    specification [spec_float] of the Standard Library at precision 53 and
    maximal exponent 1024. *)
Module PyFloat.

Definition prec : Z := 53.
Definition emax : Z := 1024.

(** The conversion of an [int] operand, correctly rounded to nearest even;
    an infinite result stands for an out-of-range operand. *)
Definition round_int (n : Z) : spec_float := binary_normalize prec emax n 0 false.

(** [float(n)]: raises [OverflowError] ([None]) when [n] is out of range. *)
Definition of_int (n : Z) : option spec_float :=
  match round_int n with
  | S754_infinity _ => None
  | x => Some x
  end.

(** The literal [1024.0] *)
Definition lit_1024 : spec_float := S754_finite false (2 ^ 52) (-42).

(** [x < y] and [x / y] on floats ([y] is never zero here). *)
Definition ltb (x y : spec_float) : bool := SFltb x y.
Definition div (x y : spec_float) : spec_float := SFdiv prec emax x y.

(** [x < k] and [x / k] for an [int] [k] of fewer than 49 bits: the
    interpreter converts [k] to a float and works on floats. *)
Definition ltb_int (x : spec_float) (k : Z) : bool := ltb x (round_int k).
Definition div_int (x : spec_float) (k : Z) : spec_float := div x (round_int k).

(** The decimal digits of a natural number. *)
Definition digits (n : Z) : string :=
  NilZero.string_of_uint (N.to_uint (Z.to_N n)).

(** The nearest integer to [num / den], ties to even, for [0 < den]. *)
Definition round_half_even (num den : Z) : Z :=
  let q := num `div` den in
  let r := num `mod` den in
  match 2 * r ?= den with
  | Lt => q
  | Gt => q + 1
  | Eq => if Z.even q then q else q + 1
  end.

(** The number of tenths nearest to [m * 2^e]. *)
Definition tenths (m : positive) (e : Z) : Z :=
  if 0 <=? e then 10 * Z.pos m * 2 ^ e
  else round_half_even (10 * Z.pos m) (2 ^ (- e)).

Definition sign_str (s : bool) : string := if s then "-" else "".

(** [f"{x:.1f}"]: the exact value rounded to one decimal, ties to even. *)
Definition format_1f (x : spec_float) : string :=
  match x with
  | S754_zero s => sign_str s +:+ "0.0"
  | S754_infinity s => sign_str s +:+ "inf"
  | S754_nan => "nan"
  | S754_finite s m e =>
      let t := tenths m e in
      sign_str s +:+ digits (t `div` 10) +:+ "." +:+ digits (t `mod` 10)
  end.

End PyFloat.

(** What a call of a Python function that may return a string does. *)
Inductive outcome : Type :=
| Returns (s : string)       (* [return s] *)
| ReturnsNone                (* the end of the body is reached *)
| Raises (exc : string).     (* an exception leaves the function *)

(** ** The size formatters *)

Definition units : list string := ["B"; "KB"; "MB"; "GB"; "TB"].

(** [units[-1]] *)
Definition units_last : string := default "" (last units).

(** [for u in units: ...] of [human_size], from the unit [u] on. *)
Fixpoint human_size_loop (us : list string) (size : spec_float) : outcome :=
  match us with
  | [] => ReturnsNone
  | u :: us' =>
      if PyFloat.ltb size PyFloat.lit_1024 || bool_decide (u = units_last)
      then Returns (PyFloat.format_1f size +:+ " " +:+ u)
      else human_size_loop us' (PyFloat.div size PyFloat.lit_1024)
  end.

Definition human_size (num_bytes : Z) : outcome :=
  match PyFloat.of_int num_bytes with
  | None => Raises "OverflowError"
  | Some size => human_size_loop units size
  end.

(** [for u in units: ...] of [human_readable]: the same loop with the
    [int] 1024 where [human_size] has the float 1024.0. *)
Fixpoint human_readable_loop (us : list string) (size : spec_float) : outcome :=
  match us with
  | [] => ReturnsNone
  | u :: us' =>
      if PyFloat.ltb_int size 1024 || bool_decide (u = units_last)
      then Returns (PyFloat.format_1f size +:+ " " +:+ u)
      else human_readable_loop us' (PyFloat.div_int size 1024)
  end.

Definition human_readable (n : Z) : outcome :=
  match PyFloat.of_int n with
  | None => Raises "OverflowError"
  | Some size => human_readable_loop units size
  end.

(** ** The directory tree on disk *)

(** What [stat] does on an entry that is not a directory it accepts. *)
Inductive stat_result : Type :=
| Regular (st_size : Z)   (* a regular file of that size *)
| Other (st_size : Z)     (* a FIFO, a socket, a device: not [S_ISREG] *)
| Missing                 (* [OSError] with an errno that [pathlib] takes
                             for an absent path: a dangling link *)
| Refused (as_dir : bool).  (* [OSError] with another errno, as [EACCES] or
                             [ENAMETOOLONG]; [as_dir]: [scandir] reports a
                             directory *)

(** An entry of a directory.  [Dir name listing] is a directory that
    [stat] accepts: [listing] is its entries in the order the operating
    system lists them, [None] when listing it raises [OSError].
    [File name st] is any other entry, with what [stat] does on it. *)
Inductive node : Type :=
| File (name : string) (st : stat_result)
| Dir (name : string) (listing : option (list node)).

Module Path.

(** [p.name] *)
Definition name (p : node) : string :=
  match p with File n _ | Dir n _ => n end.

(** [p.is_dir()]: [S_ISDIR] of [p.stat()], [False] when [stat] fails with
    an errno that [pathlib] ignores; [None] when [stat] fails otherwise,
    and the call raises. *)
Definition is_dir (p : node) : option bool :=
  match p with
  | Dir _ _ => Some true
  | File _ (Refused _) => None
  | File _ _ => Some false
  end.

(** [p.is_file()]: the same with [S_ISREG]. *)
Definition is_file (p : node) : option bool :=
  match p with
  | File _ (Regular _) => Some true
  | File _ (Refused _) => None
  | _ => Some false
  end.

(** [p.iterdir()], fully consumed; [None] when it raises. *)
Definition iterdir (p : node) : option (list node) :=
  match p with Dir _ l => l | File _ _ => None end.

(** [p.stat().st_size]; [None] when [stat] raises [OSError].  Directories
    are never asked: [os.walk] reports them in [dirnames]. *)
Definition stat_size (p : node) : option Z :=
  match p with
  | File _ (Regular sz) | File _ (Other sz) => Some sz
  | _ => None
  end.

(** The entry that the name [f] denotes inside a listing. *)
Fixpoint child (entries : list node) (f : string) : option node :=
  match entries with
  | [] => None
  | e :: es => if decide (name e = f) then Some e else child es f
  end.

(** [(p / f).stat().st_size] for a directory [p]. *)
Definition stat_child (p : node) (f : string) : option Z :=
  entries ← iterdir p; e ← child entries f; stat_size e.

End Path.

Module DirEntry.

(** [entry.is_dir()] of an entry of [os.scandir], as [os.walk] reads it:
    the kind that the directory records, and [False] where the call
    raises [OSError]. *)
Definition is_dir (p : node) : bool :=
  match p with
  | Dir _ _ => true
  | File _ (Refused as_dir) => as_dir
  | File _ _ => false
  end.

End DirEntry.

(** ** The fixed tables *)


Definition EXT_LANG : gmap string string :=
  list_to_map
    [(".js", "JavaScript"); (".jsx", "JavaScript/React");
     (".ts", "TypeScript"); (".tsx", "TypeScript/React");
     (".vue", "Vue"); (".svelte", "Svelte"); (".astro", "Astro");
     (".css", "CSS"); (".scss", "SCSS"); (".sass", "SASS"); (".less", "LESS");
     (".html", "HTML"); (".htm", "HTML");
     (".py", "Python");
     (".java", "Java"); (".kt", "Kotlin"); (".kts", "Kotlin");
     (".c", "C"); (".h", "C Header"); (".hpp", "C++ Header");
     (".hh", "C++ Header"); (".cpp", "C++"); (".cc", "C++"); (".cxx", "C++");
     (".cs", "C#");
     (".go", "Go");
     (".rs", "Rust");
     (".swift", "Swift");
     (".php", "PHP");
     (".rb", "Ruby");
     (".sh", "Shell"); (".bash", "Shell"); (".zsh", "Shell");
     (".sql", "SQL"); (".yaml", "YAML"); (".yml", "YAML"); (".json", "JSON");
     (".toml", "TOML"); (".ini", "INI"); (".env", "ENV");
     (".md", "Markdown"); (".rst", "reStructuredText");
     (".gradle", "Gradle"); (".groovy", "Groovy");
     (".dart", "Dart");
     (".r", "R");
     (".pl", "Perl");
     (".hs", "Haskell");
     (".scala", "Scala");
     (".lua", "Lua")].

(** ** Python containers whose order is observable *)

Module PyDict.

(** A [Counter] or [defaultdict(int)] with string keys, in insertion
    order. *)
Definition t := list (string * Z).

(** [d[k] += v], the missing key starting from 0 at the end of the order. *)
Fixpoint add (k : string) (v : Z) (d : t) : t :=
  match d with
  | [] => [(k, v)]
  | (k', v') :: d' =>
      if decide (k' = k) then (k', v' + v) :: d' else (k', v') :: add k v d'
  end.

(** [d.get(k)] *)
Fixpoint get (k : string) (d : t) : option Z :=
  match d with
  | [] => None
  | (k', v') :: d' => if decide (k' = k) then Some v' else get k d'
  end.

(** [list(d.keys())] *)
Definition keys (d : t) : list string := d.*1.

End PyDict.

(** [sorted(l, key=key)] and [sorted(l, key=key, reverse=True)]: Python's
    sort is stable in both directions, so it is the stable insertion sort
    for the order on the keys, ascending or descending. *)
Section sorted.
Context {A K : Type} (key : A → K) (leb : K → K → bool).

Fixpoint insert_sorted (x : A) (l : list A) : list A :=
  match l with
  | [] => [x]
  | y :: l' =>
      if leb (key x) (key y) then x :: y :: l' else y :: insert_sorted x l'
  end.

Definition sorted (l : list A) : list A := foldr insert_sorted [] l.

(** The order on the elements that the sort establishes. *)
Definition key_le (x y : A) : Prop := leb (key x) (key y) = true.
End sorted.

Definition sorted_reverse {A K} (key : A → K) (leb : K → K → bool)
    (l : list A) : list A :=
  sorted key (λ a b, leb b a) l.

(** The order of Python on the tuples [(bool, str)]: [False < True], then
    the strings code point by code point, which for UTF-8 is byte by
    byte. *)
Definition tuple_leb (a b : bool * string) : bool :=
  match a.1, b.1 with
  | false, true => true
  | true, false => false
  | _, _ => String.leb a.2 b.2
  end.

(** ** os.walk *)

(** [for dirpath, dirnames, filenames in os.walk(root): body], top-down,
    errors ignored, links not followed (the tree has none to a directory).
    The loop body
    may assign [dirnames[:]] in place, and [os.walk] then descends into the
    names left in that very list: [body] returns the list as it leaves it,
    together with the next state of the loop.  [dirpath] is passed as its
    parts relative to the root and as the directory it denotes. *)
(** The two lists of names that [os.walk] builds from a listing. *)
Definition dirnames (es : list node) : list string :=
  Path.name <$> filter DirEntry.is_dir es.
Definition filenames (es : list node) : list string :=
  Path.name <$> filter (λ e, ¬ DirEntry.is_dir e) es.

Section os_walk.
Context {S : Type}.
Variable body : list string → node → list string → list string → S → list string * S.

Fixpoint os_walk (top : list string) (p : node) (s : S) {struct p} : S :=
  match p with
  | File _ _ => s
  | Dir _ None => s
  | Dir _ (Some entries) =>
      let dirs := Path.name <$> filter DirEntry.is_dir entries in
      let nondirs := Path.name <$> filter (λ e, ¬ DirEntry.is_dir e) entries in
      let '(dirs', s1) := body top p dirs nondirs s in
      (fix walk_dirs (ds : list string) (s : S) {struct ds} : S :=
         match ds with
         | [] => s
         | d :: ds' =>
             walk_dirs ds'
               ((fix walk_child (es : list node) : S :=
                   match es with
                   | [] => s
                   | e :: es' =>
                       if decide (Path.name e = d)
                       then os_walk (top ++ [d]) e s
                       else walk_child es'
                   end) entries)
         end) dirs' s1
  end.

(** The same descent into one name [d] of the directory listed as [es],
    by a lookup. *)
Definition descend (top : list string) (es : list node) (s : S) (d : string) : S :=
  match Path.child es d with
  | Some e => os_walk (top ++ [d]) e s
  | None => s
  end.
End os_walk.

(** ** The aggregator: [gather_stats] *)

(** The local variables of [gather_stats] that the loop updates. *)
Record locals : Type := Locals {
  lang_counts : PyDict.t;
  total_files : Z;
  total_bytes : Z;
  file_sizes : list (string * Z);
  folder_sizes : PyDict.t }.

Definition initial : locals :=
  {| lang_counts := []; total_files := 0; total_bytes := 0;
     file_sizes := []; folder_sizes := [] |}.

Module Stats.
(** The dictionary that [gather_stats] returns. *)
Record t : Type := Build {
  total_files : Z;
  total_bytes : Z;
  lang_counts : PyDict.t;
  top_files : list (string * Z);
  top_folders : list (string * Z) }.
End Stats.

Section interpreter.
Context {python : Interpreter}.

(** [EXT_LANG.get(p.suffix.lower())] for a file named [f]. *)
Definition classify (f : string) : option string :=
  EXT_LANG !! lower (PurePath.suffix f).

(** [for i in range(1, len(parts)+1): folder_sizes[as_posix(parts[:i])] += sz] *)
Definition add_to_ancestors (parts : list string) (sz : Z)
    (folders : PyDict.t) : PyDict.t :=
  foldl (λ fs i, PyDict.add (PurePath.as_posix (take i parts)) sz fs)
        folders (seq 1 (length parts)).

(** [if lang: lang_counts[lang] += 1] *)
Definition count_lang (lang : option string) (counts : PyDict.t) : PyDict.t :=
  match lang with
  | Some l => if PyStr.truthy l then PyDict.add l 1 counts else counts
  | None => counts
  end.

(** What the loop does with a file [f] of size [sz] once it is past the
    two [continue]s. *)
Definition account (rel_dir : list string) (f : string) (sz : Z)
    (st : locals) : locals :=
  {| total_files := total_files st + 1;
     total_bytes := total_bytes st + sz;
     file_sizes := file_sizes st ++ [(PurePath.as_posix (rel_dir ++ [f]), sz)];
     folder_sizes := add_to_ancestors rel_dir sz (folder_sizes st);
     lang_counts := count_lang (classify f) (lang_counts st) |}.

(** One turn of [for f in filenames], in the directory [dir] whose path
    relative to the root has the parts [rel_dir]. *)
Definition visit_file (ignores : gset string) (rel_dir : list string)
    (dir : node) (st : locals) (f : string) : locals :=
  if decide (f ∈ ignores) then st
  else match Path.stat_child dir f with
       | None => st
       | Some sz => account rel_dir f sz st
       end.

(** The body of the [os.walk] loop: prune [dirnames] in place, then visit
    the files. *)
Definition walk_body (ignores : gset string) (rel_dir : list string)
    (dir : node) (dirnames filenames : list string) (st : locals)
    : list string * locals :=
  (filter (λ d, d ∉ ignores) dirnames,
   foldl (visit_file ignores rel_dir dir) st filenames).

(** The locals when the loop over [os.walk(root)] has ended. *)
Definition gather_loop (root : node) (ignores : gset string) : locals :=
  os_walk (walk_body ignores) [] root initial.

(** [sorted(items, key=lambda x: x[1], reverse=True)[:n]] *)
Definition top_n (n : nat) (items : list (string * Z)) : list (string * Z) :=
  take n (sorted_reverse snd Z.leb items).

Definition gather_stats (root : node) (ignores : gset string) : Stats.t :=
  let st := gather_loop root ignores in
  {| Stats.total_files := total_files st;
     Stats.total_bytes := total_bytes st;
     Stats.lang_counts := lang_counts st;
     Stats.top_files := top_n 15 (file_sizes st);
     Stats.top_folders := top_n 10 (folder_sizes st) |}.

(** ** The tree renderer: [scan_tree] *)

(** [enumerate(l)] *)
Definition enumerate {A} (l : list A) : list (nat * A) := imap pair l.

(** The sort key of [scan_tree], [(p.is_file(), p.name.lower())];
    [None] when [is_file] raises. *)
Definition sort_key (p : node) : option (bool * string) :=
  b ← Path.is_file p; Some (b, lower (Path.name p)).

(** The [try] block of [helper]:
    [sorted(path.iterdir(), key=lambda p: (p.is_file(), p.name.lower()))],
    [None] when the listing or a key raises. *)
Definition sorted_entries (path : node) : option (list node) :=
  ps ← Path.iterdir path;
  keyed ← mapM (λ p, k ← sort_key p; Some (k, p)) ps;
  Some ((sorted fst tuple_leb keyed).*2).

(** [i == len(entries) - 1] *)
Definition is_last_at (n i : nat) : bool :=
  bool_decide (Z.of_nat i = Z.of_nat n - 1).

Definition connector (is_last : bool) : string :=
  if is_last then "└── " else "├── ".

Definition extension (is_last : bool) : string :=
  if is_last then "    " else "│   ".

(** [entry.is_dir()] in the loop of [helper].  The entry has been given a
    sort key, so [stat] does not raise on it and the call returns (see
    [shown_entry_stat] below). *)
Definition entry_is_dir (entry : node) : bool :=
  bool_decide (Path.is_dir entry = Some true).

(** The line that [helper] appends for one entry. *)
Definition entry_line (prefix : string) (is_last : bool) (entry : node) : string :=
  prefix +:+ connector is_last +:+ Path.name entry
         +:+ (if entry_is_dir entry then "/" else "").

(** The inner function [helper] of [scan_tree]; the list [lines] that it
    appends to is threaded through.  The recursion ends because
    [current_depth] grows towards [depth]. *)
Equations? helper (depth : Z) (ignores : gset string) (path : node)
    (prefix : string) (current_depth : Z) (lines : list string)
    : list string by wf (Z.to_nat (depth + 1 - current_depth)) lt :=
helper depth ignores path prefix current_depth lines
  with Z_gt_dec current_depth depth := {
  | left _ => lines
  | right _ =>
      match sorted_entries path with
      | None => lines
      | Some entries =>
          let entries := filter (λ e, Path.name e ∉ ignores) entries in
          foldl (λ lines ie,
                   let is_last := is_last_at (length entries) ie.1 in
                   let lines := lines ++ [entry_line prefix is_last ie.2] in
                   if entry_is_dir ie.2 then
                     helper depth ignores ie.2 (prefix +:+ extension is_last)
                            (current_depth + 1) lines
                   else lines)
                lines (enumerate entries)
      end }.
Proof. lia. Qed.

(** What one turn of the loop of [helper] appends: the line of the entry,
    then the lines of its subtree. *)
Definition entry_lines (depth : Z) (ignores : gset string) (prefix : string)
    (current_depth : Z) (n : nat) (ie : nat * node) : list string :=
  let is_last := is_last_at n ie.1 in
  entry_line prefix is_last ie.2
  :: (if entry_is_dir ie.2
      then helper depth ignores ie.2 (prefix +:+ extension is_last)
                  (current_depth + 1) []
      else []).

Definition scan_tree (root : node) (depth : Z) (ignores : gset string)
    : list string :=
  helper depth ignores root "" 1 [Path.name root +:+ "/"].

(** ** Notions used to state the properties *)

(** The sort key of an entry on which [is_file] does not raise. *)
Definition entry_key (p : node) : bool * string :=
  (bool_decide (Path.is_file p = Some true), lower (Path.name p)).

(** [is_file] raises on no entry of the listing. *)
Definition keys_readable (ps : list node) : bool :=
  forallb (λ p, bool_decide (is_Some (Path.is_file p))) ps.

(** The entries of a directory as the loop of [helper] walks them: sorted,
    then filtered; none when the [try] block raises. *)
Definition shown_entries (ignores : gset string) (path : node) : list node :=
  filter (λ e, Path.name e ∉ ignores) (default [] (sorted_entries path)).

(** A tree as a filesystem has it: the names in one directory are
    distinct. *)
Fixpoint unique_names (p : node) : bool :=
  match p with
  | Dir _ (Some es) =>
      bool_decide (NoDup (Path.name <$> es)) && forallb unique_names es
  | _ => true
  end.

(** The tree without the entries whose name is excluded, at every depth. *)
Fixpoint prune (ignores : gset string) (p : node) : node :=
  match p with
  | Dir n (Some es) =>
      Dir n (Some (omap (λ e, if decide (Path.name e ∈ ignores) then None
                              else Some (prune ignores e)) es))
  | _ => p
  end.

(** What [prune] does with one entry. *)
Definition prune_entry (ignores : gset string) (e : node) : option node :=
  if decide (Path.name e ∈ ignores) then None else Some (prune ignores e).

(** An entry without what lies below it. *)
Definition stub (e : node) : node :=
  match e with
  | Dir n _ => Dir n None
  | File _ _ => e
  end.

(** The tree in which nothing is left below an excluded name, at every
    depth; the excluded entries themselves stay. *)
Fixpoint hollow (ignores : gset string) (p : node) : node :=
  match p with
  | Dir n (Some es) =>
      Dir n (Some ((λ e, if decide (Path.name e ∈ ignores) then stub e
                         else hollow ignores e) <$> es))
  | _ => p
  end.

(** What [hollow] does with one entry. *)
Definition hollow_entry (ignores : gset string) (e : node) : node :=
  if decide (Path.name e ∈ ignores) then stub e else hollow ignores e.

(** [is_file] raises on no excluded entry, in the root and in every
    directory below it that is not under an excluded name. *)
Fixpoint excluded_keys_readable (ignores : gset string) (p : node) : bool :=
  match p with
  | Dir _ (Some es) =>
      forallb (λ e, if decide (Path.name e ∈ ignores)
                    then bool_decide (is_Some (Path.is_file e))
                    else excluded_keys_readable ignores e) es
  | _ => true
  end.




(** A tree with an unreadable file and a directory that cannot be
    listed. *)
Definition partly_unreadable : node :=
  Dir "repo"
    (Some [File "gone.txt" Missing; Dir "locked" None;
           Dir "src" (Some [File "main.go" (Regular 500);
                            File "dangling" Missing])]).

(** [visible ignores root parts e]: the entry [e] lies below [root] at the
    relative path [parts], and no part of that path is excluded. *)
Inductive visible (ignores : gset string) : node → list string → node → Prop :=
| visible_entry d es e :
    Path.iterdir d = Some es → e ∈ es → Path.name e ∉ ignores →
    visible ignores d [Path.name e] e
| visible_below d es c parts e :
    Path.iterdir d = Some es → c ∈ es → Path.name c ∉ ignores →
    visible ignores c parts e →
    visible ignores d (Path.name c :: parts) e.

(** The directory [p] is the root, or a visible directory at [top]. *)
Definition reaches (ignores : gset string) (root : node) (top : list string)
    (p : node) : Prop :=
  (top = [] ∧ p = root) ∨ visible ignores root top p.

(** One indentation block of the renderer. *)
Definition is_block (b : string) : Prop := b = extension true ∨ b = extension false.

(** [line] is the line of the entry [e], found below [root] at the path
    [parts] of which no part is excluded, indented by one block for each
    directory of the path and nested no deeper than [depth]. *)
Definition renders (ignores : gset string) (root : node) (depth : Z)
    (line : string) : Prop :=
  ∃ parts e blocks is_last,
    visible ignores root parts e
    ∧ Z.of_nat (length parts) ≤ depth
    ∧ S (length blocks) = length parts
    ∧ Forall is_block blocks
    ∧ line = entry_line (String.concat "" blocks) is_last e.

(** [s] without its prefix [p], when it starts with [p]. *)
Fixpoint after_prefix (p s : string) : option string :=
  match p, s with
  | EmptyString, _ => Some s
  | String c p', String c' s' =>
      if Ascii.eqb c c' then after_prefix p' s' else None
  | String _ _, EmptyString => None
  end.

(** The nesting level that a rendered line shows: one more than the
    number of indentation blocks in front of its connector. *)
Fixpoint line_level_from (fuel : nat) (line : string) : option nat :=
  match fuel with
  | O => None
  | S fuel' =>
      match after_prefix (connector true) line,
            after_prefix (connector false) line with
      | None, None =>
          match after_prefix (extension true) line,
                after_prefix (extension false) line with
          | Some rest, _ | None, Some rest => S <$> line_level_from fuel' rest
          | None, None => None
          end
      | _, _ => Some 1%nat
      end
  end.

Definition line_level (line : string) : option nat :=
  line_level_from (String.length line) line.

(** The file record [r] is the record of a visible entry, with the size
    that [stat] gives for it. *)
Definition records_visible (ignores : gset string) (root : node)
    (r : string * Z) : Prop :=
  ∃ parts e, visible ignores root parts e
             ∧ r.1 = PurePath.as_posix parts ∧ Path.stat_size e = Some r.2.

(** The folder key [k] is the path of a visible directory. *)
Definition names_visible_dir (ignores : gset string) (root : node)
    (k : string) : Prop :=
  ∃ parts e, visible ignores root parts e
             ∧ Path.is_dir e = Some true ∧ k = PurePath.as_posix parts.

(** The files that count, by recursion on the tree: every file that is not
    excluded, lies under no excluded directory and whose size can be read,
    as (parts of its directory, name, size); the files of a directory come
    before those of its subdirectories. *)
Fixpoint visible_files (ignores : gset string) (rel_dir : list string)
    (p : node) : list (list string * string * Z) :=
  match p with
  | Dir _ (Some es) =>
      omap (λ e, match e with
                 | File f (Regular sz) | File f (Other sz) =>
                     if decide (f ∈ ignores) then None else Some (rel_dir, f, sz)
                 | _ => None
                 end) es
      ++ es ≫= (λ e, if decide (Path.name e ∈ ignores) then []
                     else visible_files ignores (rel_dir ++ [Path.name e]) e)
  | _ => []
  end.

(** The folder key [F] names a proper ancestor of a file in the directory
    [rel_dir]: it is the path of one of the non-empty prefixes of
    [rel_dir]. *)
Definition is_ancestor (F : string) (rel_dir : list string) : Prop :=
  ∃ parts, parts ≠ [] ∧ parts `prefix_of` rel_dir ∧ F = PurePath.as_posix parts.

(** The same condition, computed along the prefixes of [rel_dir]. *)
Definition is_ancestorb (F : string) (rel_dir : list string) : bool :=
  bool_decide (Exists (λ i, F = PurePath.as_posix (take i rel_dir))
                      (seq 1 (length rel_dir))).

(** The sum of a list of integers. *)
Definition Zsum (l : list Z) : Z := foldr Z.add 0 l.

(** The brute-force size of the folder [F]: the sizes of the files that
    count and have [F] as a proper ancestor, added up. *)
Definition folder_total (ignores : gset string) (root : node) (F : string) : Z :=
  Zsum ((λ x, if is_ancestorb F x.1.1 then x.2 else 0)
          <$> visible_files ignores [] root).

(** The file record of a file that counts. *)
Definition record_of (x : list string * string * Z) : string * Z :=
  (PurePath.as_posix (x.1.1 ++ [x.1.2]), x.2).

(** The size of the folder [F] recomputed from the file records alone: the
    sizes of the records whose path starts with [F] and a slash, added
    up. *)
Definition folder_total_of_records (records : list (string * Z))
    (F : string) : Z :=
  Zsum ((λ r, if PyStr.startswith (F +:+ "/") r.1 then r.2 else 0) <$> records).

(** [d[k]] read after the loop, 0 for a key that was never written. *)
Definition getz (k : string) (d : PyDict.t) : Z := default 0 (PyDict.get k d).

(** The keys that [add_to_ancestors] writes for a file in [parts]. *)
Definition ancestor_keys (parts : list string) : list string :=
  (λ i, PurePath.as_posix (take i parts)) <$> seq 1 (length parts).

(** A name that a directory entry can have. *)
Definition valid_name (s : string) : bool :=
  bool_decide (s ≠ "" ∧ s ≠ "." ∧ s ≠ "..")
  && negb (PyStr.contains "/" s).

(** All entries below [p] have such names. *)
Fixpoint valid_names (p : node) : bool :=
  match p with
  | Dir _ (Some es) =>
      forallb (λ e, valid_name (Path.name e) && valid_names e) es
  | _ => true
  end.

(** A tree that a filesystem can hold. *)
Definition well_formed (root : node) : bool :=
  unique_names root && valid_names root.

(** The loop of the aggregator run on a list of files that count. *)
Definition account_all (files : list (list string * string * Z))
    (st : locals) : locals :=
  foldl (λ st x, account x.1.1 x.1.2 x.2 st) st files.

(** The size after [k] turns of the loop of the formatters. *)
Definition scaled (x : spec_float) (k : nat) : spec_float :=
  Nat.iter k (λ y, PyFloat.div y PyFloat.lit_1024) x.

(** A float that a byte count becomes: zero, or a positive normal number
    of 53 significant bits. *)
Definition is_size (x : spec_float) : Prop :=
  x = S754_zero false
  ∨ ∃ m e, x = S754_finite false m e
           ∧ digits2_pos m = 53%positive ∧ -1074 ≤ e ≤ 971.

Definition is_digit (c : ascii) : bool :=
  ((48 <=? nat_of_ascii c) && (nat_of_ascii c <=? 57))%nat.

Definition all_digits (s : string) : bool :=
  forallb is_digit (list_ascii_of_string s).

(** A number with one decimal place: digits, a point, one digit. *)
Definition one_decimal (s : string) : Prop :=
  ∃ int_part d,
    s = int_part +:+ "." +:+ String d ""
    ∧ int_part ≠ "" ∧ all_digits int_part = true ∧ is_digit d = true.

(** The scenario of the specification: [src/main.go] (500 bytes),
    [src/lib/util.go] (300 bytes) and [README.md] (100 bytes). *)
Definition scenario : node :=
  Dir "repo"
    (Some [File "README.md" (Regular 100);
           Dir "src" (Some [Dir "lib" (Some [File "util.go" (Regular 300)]);
                            File "main.go" (Regular 500)])]).

(** A listing in which [build] is to be excluded. *)
Definition mixed_listing : list node :=
  [File "b.txt" (Regular 1); Dir "src" None; File "A.md" (Regular 2);
   Dir "build" None; Dir "Docs" None].

(** Four files met in the order a, b, c, d. *)
Definition four_files : node :=
  Dir "repo" (Some [File "a" (Regular 100); File "b" (Regular 50);
                    File "c" (Regular 100); File "d" (Regular 10)]).

(** * Properties *)

(** ** Induction on trees *)

Section node_induction.
Variable P : node → Prop.
Hypothesis P_file : ∀ n sz, P (File n sz).
Hypothesis P_unlisted : ∀ n, P (Dir n None).
Hypothesis P_dir : ∀ n es, Forall P es → P (Dir n (Some es)).

Fixpoint node_induction (p : node) : P p :=
  match p with
  | File n sz => P_file n sz
  | Dir n None => P_unlisted n
  | Dir n (Some es) =>
      P_dir n es
        ((fix all (l : list node) : Forall P l :=
            match l with
            | [] => List.Forall_nil P
            | e :: l' => @List.Forall_cons _ P e l' (node_induction e) (all l')
            end) es)
  end.
End node_induction.

(** ** Looking a name up in a listing *)

Lemma child_Some es f e : Path.child es f = Some e → e ∈ es ∧ Path.name e = f.
Proof.
  induction es as [|x es IH]; simpl; [done|].
  case_decide.
  - intros [= ->]. split; [left | done].
  - intros H'. destruct (IH H') as [? ?]. split; [by right | done].
Qed.

Lemma child_None es f : Path.child es f = None ↔ f ∉ Path.name <$> es.
Proof.
  induction es as [|x es IH]; simpl.
  - split; [intros _; apply not_elem_of_nil | done].
  - case_decide as Hx.
    + split; [done | intros Hn; destruct Hn; subst; left].
    + rewrite IH, not_elem_of_cons. intuition congruence.
Qed.

Lemma child_unique es e :
  NoDup (Path.name <$> es) → e ∈ es → Path.child es (Path.name e) = Some e.
Proof.
  induction es as [|x es IH]; simpl; [by intros _ ?%elem_of_nil|].
  rewrite NoDup_cons. intros [Hx Hnd] [->|Hin]%elem_of_cons.
  - by rewrite decide_True.
  - rewrite decide_False; [by apply IH|].
    intros Heq. apply Hx. rewrite Heq. by apply list_elem_of_fmap_2.
Qed.

(** ** The loop over [os.walk] *)

Section os_walk_facts.
Context {S : Type}.
Variable body : list string → node → list string → list string → S → list string * S.

Lemma os_walk_dir top n es s :
  os_walk body top (Dir n (Some es)) s =
  let r := body top (Dir n (Some es)) (dirnames es) (filenames es) s in
  foldl (descend body top es) r.2 r.1.
Proof.
  simpl.
  destruct (body _ _ _ _ _) as [ds s1]. simpl.
  revert s1. induction ds as [|d ds IH]; intros s1; [done|].
  simpl. rewrite IH. f_equal. clear IH.
  unfold descend. induction es as [|e l IHl]; simpl; [done|].
  by case_decide.
Qed.

(** An invariant [P] of the loop state holds at the end when the body
    keeps it, in every directory [Q] that the walk can reach. *)
Lemma os_walk_invariant (Q : list string → node → Prop) (P : S → Prop) :
  (∀ top p es ds fs s, Path.iterdir p = Some es → Q top p → P s →
     P (body top p ds fs s).2) →
  (∀ top p es s d e, Path.iterdir p = Some es → Q top p →
     d ∈ (body top p (dirnames es) (filenames es) s).1 →
     e ∈ es → Path.name e = d → Q (top ++ [d]) e) →
  ∀ p top s, Q top p → P s → P (os_walk body top p s).
Proof.
  intros Hbody Hdesc p. induction p as [| |n es IH] using node_induction;
    intros top s HQ HP; [done..|].
  rewrite os_walk_dir. simpl.
  pose proof (Hbody top (Dir n (Some es)) es (dirnames es) (filenames es) s eq_refl HQ HP) as HP1.
  pose proof (Hdesc top (Dir n (Some es)) es s) as Hd. specialize (λ d e, Hd d e eq_refl HQ).
  destruct (body _ _ _ _ _) as [ds s1]. simpl in *.
  revert s1 HP1. induction ds as [|d ds IHds]; intros s1 HP1; [done|].
  simpl. apply IHds.
  - intros d' e' Hin. apply Hd. by right.
  - unfold descend. destruct (Path.child es d) as [e|] eqn:He; [|done].
    apply child_Some in He as [Hin Hname].
    rewrite Forall_forall in IH. apply IH; [done| |done].
    apply Hd; [left|done..].
Qed.

End os_walk_facts.

(** ** The totals *)

Lemma Zsum_app l1 l2 : Zsum (l1 ++ l2) = Zsum l1 + Zsum l2.
Proof. unfold Zsum. induction l1 as [|x l1 IH]; simpl; lia. Qed.

(** An invariant of the loop state that every turn on a file keeps is
    kept by the whole loop. *)
Lemma gather_loop_invariant (P : locals → Prop) root ignores :
  P initial →
  (∀ rel_dir f sz st, P st → P (account rel_dir f sz st)) →
  P (gather_loop root ignores).
Proof.
  intros Hinit Hacc. unfold gather_loop.
  apply (os_walk_invariant _ (λ _ _, True)); [|done..].
  intros top p es ds fs s _ _ Hs. simpl.
  revert s Hs. induction fs as [|f fs IH]; intros s Hs; [done|].
  simpl. apply IH. unfold visit_file.
  case_decide; [done|]. destruct (Path.stat_child p f); [by apply Hacc | done].
Qed.

(** C3. The totals of the aggregator agree with its file records:
    [total_bytes] is the sum of the recorded sizes and [total_files] is the
    number of records, in the locals when the loop ends and in the
    dictionary that [gather_stats] returns. *)
Theorem totals_match_records (root : node) (ignores : gset string) :
  let st := gather_loop root ignores in
  let stats := gather_stats root ignores in
  total_bytes st = Zsum (file_sizes st).*2 ∧
  total_files st = Z.of_nat (length (file_sizes st)) ∧
  Stats.total_bytes stats = Zsum (file_sizes st).*2 ∧
  Stats.total_files stats = Z.of_nat (length (file_sizes st)).
Proof.
  simpl.
  assert (total_bytes (gather_loop root ignores)
            = Zsum (file_sizes (gather_loop root ignores)).*2
          ∧ total_files (gather_loop root ignores)
            = Z.of_nat (length (file_sizes (gather_loop root ignores))))
    as [Hb Hf]; [|done].
  apply (gather_loop_invariant
           (λ st, total_bytes st = Zsum (file_sizes st).*2
                  ∧ total_files st = Z.of_nat (length (file_sizes st)))).
  - done.
  - intros rel_dir f sz st [Hb Hf]. simpl.
    rewrite fmap_app, Zsum_app, length_app. simpl. lia.
Qed.

(** ** The aggregator as a fold over the files that count *)

Lemma unique_names_dir n es :
  unique_names (Dir n (Some es)) = true →
  NoDup (Path.name <$> es) ∧ Forall (λ e, unique_names e = true) es.
Proof.
  simpl. rewrite andb_true_iff, bool_decide_eq_true, forallb_forall.
  intros [? Hall]. split; [done|].
  apply Forall_forall. intros e He. apply Hall. by apply list_elem_of_In.
Qed.

Lemma account_all_app l1 l2 st :
  account_all (l1 ++ l2) st = account_all l2 (account_all l1 st).
Proof. unfold account_all. apply foldl_app. Qed.

Lemma visit_files_visible ignores top n es l st :
  NoDup (Path.name <$> es) → l ⊆ es →
  foldl (visit_file ignores top (Dir n (Some es))) st (filenames l) =
  account_all
    (omap (λ e, match e with
                | File f (Regular sz) | File f (Other sz) =>
                    if decide (f ∈ ignores) then None else Some (top, f, sz)
                | _ => None
                end) l) st.
Proof.
  intros Hnd. revert st. induction l as [|e l IH]; intros st Hl; [done|].
  assert (e ∈ es) as He by (apply Hl; left).
  assert (l ⊆ es) as Hl' by (intros x Hx; apply Hl; by right).
  unfold filenames in *. rewrite filter_cons.
  destruct (decide (¬ DirEntry.is_dir e)) as [Hf|Hd].
  - destruct e as [f st'|d ls]; [|by destruct Hf].
    simpl. rewrite IH by done. unfold visit_file, Path.stat_child. simpl.
    rewrite (child_unique es (File f st') Hnd He : Path.child es f = _). simpl.
    destruct st' as [sz|sz| |b]; case_decide; done.
  - rewrite IH by done.
    destruct e as [f [sz|sz| |[]]|d ls]; simpl in *; tauto.
Qed.

Lemma descend_visible ignores top es l st :
  NoDup (Path.name <$> es) → l ⊆ es →
  Forall (λ p, ∀ top st, os_walk (walk_body ignores) top p st
                         = account_all (visible_files ignores top p) st) es →
  foldl (descend (walk_body ignores) top es) st
        (filter (λ d, d ∉ ignores) (dirnames l)) =
  account_all
    (l ≫= (λ e, if decide (Path.name e ∈ ignores) then []
                else visible_files ignores (top ++ [Path.name e]) e)) st.
Proof.
  intros Hnd Hl IH. revert st Hl.
  induction l as [|e l IHl]; intros st Hl; [done|].
  assert (e ∈ es) as He by (apply Hl; left).
  assert (l ⊆ es) as Hl' by (intros x Hx; apply Hl; by right).
  unfold dirnames in *. rewrite filter_cons. cbn [mbind list_bind].
  rewrite account_all_app.
  destruct (decide (DirEntry.is_dir e)) as [Hdir|Hdir].
  - cbn [fmap list_fmap].
    rewrite filter_cons. destruct (decide (Path.name e ∈ ignores)) as [Hd|Hd].
    + rewrite decide_False by tauto. simpl. by apply IHl.
    + rewrite decide_True by done. cbn [foldl]. rewrite IHl by done.
      f_equal. unfold descend.
      rewrite (child_unique es e Hnd He).
      rewrite Forall_forall in IH. by apply IH.
  - rewrite IHl by done.
    destruct e as [f st'|d ls]; [|by destruct Hdir].
    simpl. by case_decide.
Qed.

Lemma os_walk_visible ignores p :
  unique_names p = true →
  ∀ top st,
    os_walk (walk_body ignores) top p st
    = account_all (visible_files ignores top p) st.
Proof.
  induction p as [| |n es IH] using node_induction; intros Hu top st; [done..|].
  apply unique_names_dir in Hu as [Hnd Hall].
  rewrite os_walk_dir. cbn [walk_body fst snd visible_files].
  rewrite account_all_app.
  rewrite (visit_files_visible ignores top n es es st) by done.
  apply descend_visible; [done..|].
  rewrite Forall_forall in IH, Hall. apply Forall_forall.
  intros e He top' st'. apply IH; [done|by apply Hall].
Qed.

(** With distinct names in every directory, the loop of the aggregator
    is the fold of [account] over the files that count. *)
Lemma gather_loop_visible root ignores :
  unique_names root = true →
  gather_loop root ignores = account_all (visible_files ignores [] root) initial.
Proof. intros Hu. by apply os_walk_visible. Qed.

(** ** Strings *)

Lemma string_app_cons (x : ascii) (a b : string) :
  String x a +:+ b = String x (a +:+ b).
Proof. reflexivity. Qed.

Lemma string_app_nil_l (a : string) : "" +:+ a = a.
Proof. reflexivity. Qed.

Lemma string_length_app (a b : string) :
  String.length (a +:+ b) = (String.length a + String.length b)%nat.
Proof.
  induction a as [|c a IH]; [done|].
  rewrite string_app_cons. simpl. by rewrite IH.
Qed.

Lemma string_app_assoc (a b c : string) : (a +:+ b) +:+ c = a +:+ (b +:+ c).
Proof.
  induction a as [|x a IH]; [done|].
  rewrite !string_app_cons. by f_equal.
Qed.

Lemma string_app_nil_r (a : string) : a +:+ "" = a.
Proof.
  induction a as [|x a IH]; [done|].
  rewrite string_app_cons. by f_equal.
Qed.

(** ** The folder sizes *)

Lemma get_add k k' v d :
  PyDict.get k (PyDict.add k' v d)
  = if decide (k' = k) then Some (getz k d + v) else PyDict.get k d.
Proof.
  unfold getz. induction d as [|[k0 v0] d IH]; simpl.
  - by case_decide.
  - destruct (decide (k0 = k')) as [->|Hne]; simpl.
    + by case_decide.
    + destruct (decide (k0 = k)) as [->|Hne'].
      * by rewrite decide_False by done.
      * done.
Qed.

Lemma getz_add k k' v d :
  getz k (PyDict.add k' v d) = getz k d + (if decide (k' = k) then v else 0).
Proof.
  unfold getz at 1. rewrite get_add. case_decide; simpl; [lia|].
  unfold getz. lia.
Qed.

Lemma get_add_is_Some k k' v d :
  is_Some (PyDict.get k (PyDict.add k' v d)) ↔ k' = k ∨ is_Some (PyDict.get k d).
Proof.
  rewrite get_add. case_decide; [by subst; split; [left|eexists]|].
  split; [by right|]. by intros [?|?].
Qed.

Lemma add_to_ancestors_keys parts sz d :
  add_to_ancestors parts sz d
  = foldl (λ fs k, PyDict.add k sz fs) d (ancestor_keys parts).
Proof. unfold add_to_ancestors, ancestor_keys. by rewrite foldl_fmap. Qed.

Lemma getz_add_keys F sz keys d :
  NoDup keys →
  getz F (foldl (λ fs k, PyDict.add k sz fs) d keys)
  = getz F d + (if decide (F ∈ keys) then sz else 0).
Proof.
  intros Hnd. revert d. induction Hnd as [|k keys Hk Hnd IH]; intros d.
  - cbn [foldl]. rewrite decide_False by apply not_elem_of_nil. lia.
  - cbn [foldl]. rewrite IH, getz_add.
    destruct (decide (k = F)) as [->|Hne].
    + rewrite decide_False by done. rewrite decide_True by left. lia.
    + destruct (decide (F ∈ keys)).
      * rewrite decide_True by (by right). lia.
      * rewrite decide_False; [lia|]. rewrite elem_of_cons.
        by intros [?|?].
Qed.

Lemma get_add_keys_is_Some F sz keys d :
  is_Some (PyDict.get F (foldl (λ fs k, PyDict.add k sz fs) d keys))
  ↔ F ∈ keys ∨ is_Some (PyDict.get F d).
Proof.
  revert d. induction keys as [|k keys IH]; intros d; simpl.
  - rewrite elem_of_nil. tauto.
  - rewrite IH, get_add_is_Some, elem_of_cons. intuition.
Qed.

(** The path of a longer prefix is a longer string, so the keys written
    for one file are distinct. *)
Lemma as_posix_snoc_length parts x :
  parts ≠ [] →
  String.length (PurePath.as_posix (parts ++ [x]))
  = (String.length (PurePath.as_posix parts) + 1 + String.length x)%nat.
Proof.
  unfold PurePath.as_posix, PyStr.join.
  induction parts as [|y parts IH]; [done|]. intros _.
  destruct parts as [|z parts].
  - simpl. rewrite !string_length_app. simpl. lia.
  - change (String.concat "/" ((y :: z :: parts) ++ [x]))
      with (y +:+ "/" +:+ String.concat "/" ((z :: parts) ++ [x])).
    change (String.concat "/" (y :: z :: parts))
      with (y +:+ "/" +:+ String.concat "/" (z :: parts)).
    rewrite !string_length_app, IH by done. simpl. lia.
Qed.

Lemma as_posix_take_length parts i j :
  (1 ≤ i < j)%nat → (j ≤ length parts)%nat →
  (String.length (PurePath.as_posix (take i parts))
   < String.length (PurePath.as_posix (take j parts)))%nat.
Proof.
  intros Hij Hj. induction j as [|j IH]; [lia|].
  destruct (lookup_lt_is_Some_2 parts j) as [x Hx]; [lia|].
  rewrite (take_S_r _ _ _ Hx).
  rewrite as_posix_snoc_length.
  - destruct (decide (i = j)) as [->|]; [lia|].
    assert (String.length (PurePath.as_posix (take i parts))
            < String.length (PurePath.as_posix (take j parts)))%nat
      by (apply IH; lia). lia.
  - intros Hnil. apply (f_equal length) in Hnil.
    rewrite length_take in Hnil. simpl in Hnil. lia.
Qed.

Lemma ancestor_keys_NoDup parts : NoDup (ancestor_keys parts).
Proof.
  unfold ancestor_keys. apply NoDup_fmap_2_strong; [|apply NoDup_seq].
  intros i j [? ?]%elem_of_seq [? ?]%elem_of_seq Heq.
  destruct (decide (i = j)) as [|Hne]; [done|exfalso].
  apply (f_equal String.length) in Heq.
  destruct (decide (i < j)%nat).
  - pose proof (as_posix_take_length parts i j). lia.
  - pose proof (as_posix_take_length parts j i). lia.
Qed.

Lemma is_ancestorb_keys F parts :
  is_ancestorb F parts = true ↔ F ∈ ancestor_keys parts.
Proof.
  unfold is_ancestorb, ancestor_keys.
  rewrite bool_decide_eq_true, Exists_exists, list_elem_of_fmap.
  split; intros (i & ? & ?); by exists i.
Qed.

(** [is_ancestorb] computes [is_ancestor]. *)
Lemma is_ancestorb_spec F parts :
  is_ancestorb F parts = true ↔ is_ancestor F parts.
Proof.
  rewrite is_ancestorb_keys. unfold ancestor_keys, is_ancestor.
  rewrite list_elem_of_fmap. split.
  - intros (i & -> & [? ?]%elem_of_seq). exists (take i parts).
    split_and!; [|apply prefix_take|done].
    intros Hnil. apply (f_equal length) in Hnil.
    rewrite length_take in Hnil. simpl in Hnil. lia.
  - intros (ps & Hne & [k ->] & ->). exists (length ps). split.
    + by rewrite take_app_length.
    + apply elem_of_seq. rewrite length_app.
      destruct ps; [done|simpl; lia].
Qed.

Lemma getz_add_to_ancestors F parts sz d :
  getz F (add_to_ancestors parts sz d)
  = getz F d + (if is_ancestorb F parts then sz else 0).
Proof.
  rewrite add_to_ancestors_keys, getz_add_keys by apply ancestor_keys_NoDup.
  pose proof (is_ancestorb_keys F parts) as H.
  destruct (is_ancestorb F parts); case_decide; try done;
    [by destruct H as [H _]; specialize (H eq_refl)
    |by destruct H as [_ H]; specialize (H ltac:(done))].
Qed.

Lemma get_add_to_ancestors_is_Some F parts sz d :
  is_Some (PyDict.get F (add_to_ancestors parts sz d))
  ↔ is_ancestorb F parts = true ∨ is_Some (PyDict.get F d).
Proof.
  by rewrite add_to_ancestors_keys, get_add_keys_is_Some, is_ancestorb_keys.
Qed.

(** The folder sizes after the loop has run on a list of files. *)
Lemma getz_account_all F files st :
  getz F (folder_sizes (account_all files st))
  = getz F (folder_sizes st)
    + Zsum ((λ x, if is_ancestorb F x.1.1 then x.2 else 0) <$> files).
Proof.
  revert st. induction files as [|[[rel f] sz] files IH]; intros st.
  - unfold account_all, Zsum. simpl. lia.
  - change (account_all (((rel, f), sz) :: files) st)
      with (account_all files (account rel f sz st)).
    rewrite IH. simpl. rewrite getz_add_to_ancestors.
    symmetry. apply Z.add_assoc.
Qed.

Lemma get_account_all_is_Some F files st :
  is_Some (PyDict.get F (folder_sizes (account_all files st)))
  ↔ (∃ x, x ∈ files ∧ is_ancestorb F x.1.1 = true)
    ∨ is_Some (PyDict.get F (folder_sizes st)).
Proof.
  revert st. induction files as [|[[rel f] sz] files IH]; intros st.
  - simpl. split; [by right|]. intros [(x & Hx & _)|?]; [|done].
    by apply elem_of_nil in Hx.
  - change (account_all (((rel, f), sz) :: files) st)
      with (account_all files (account rel f sz st)).
    rewrite IH. simpl. rewrite get_add_to_ancestors_is_Some.
    setoid_rewrite elem_of_cons. split.
    + intros [(x & Hx & Hanc)|[Hanc|?]]; [left; exists x; by auto| |by right].
      left. exists (rel, f, sz). by auto.
    + intros [(x & [->|Hx] & Hanc)|?]; [by right; left| |by right; right].
      left. by exists x.
Qed.

Lemma valid_names_dir n es :
  valid_names (Dir n (Some es)) = true →
  Forall (λ e, valid_name (Path.name e) = true ∧ valid_names e = true) es.
Proof.
  simpl. rewrite forallb_forall. intros Hall.
  apply Forall_forall. intros e He%list_elem_of_In.
  apply andb_true_iff. by apply Hall.
Qed.

Lemma visible_files_valid ignores p :
  valid_names p = true →
  ∀ top x, Forall (λ s, valid_name s = true) top →
    x ∈ visible_files ignores top p →
    Forall (λ s, valid_name s = true) x.1.1.
Proof.
  induction p as [| |n es IH] using node_induction; intros Hv top x Htop;
    [by intros ?%elem_of_nil..|].
  apply valid_names_dir in Hv.
  cbn [visible_files]. rewrite elem_of_app, list_elem_of_omap, list_elem_of_bind.
  intros [(e & He & Hx)|(e & Hx & He)].
  - destruct e as [f [sz|sz| |b]|d ls]; simpl in Hx; try discriminate;
      (case_decide; [discriminate|]); by injection Hx as <-.
  - case_decide; [by apply elem_of_nil in Hx|].
    rewrite Forall_forall in IH, Hv. destruct (Hv e He) as [Hn Hve].
    apply (IH e He Hve (top ++ [Path.name e])); [|done].
    apply Forall_app. split; [done|]. by apply Forall_singleton.
Qed.

Lemma as_posix_valid parts :
  parts ≠ [] → Forall (λ s, valid_name s = true) parts →
  PurePath.as_posix parts ≠ "" ∧ PurePath.as_posix parts ≠ ".".
Proof.
  destruct parts as [|x parts]; [done|]. intros _ Hall.
  apply Forall_cons in Hall as [Hx _].
  unfold valid_name in Hx.
  apply andb_true_iff in Hx as [(Hx1 & Hx2 & _)%bool_decide_eq_true _].
  unfold PurePath.as_posix, PyStr.join.
  destruct parts as [|y parts]; [done|].
  change (String.concat "/" (x :: y :: parts))
    with (x +:+ "/" +:+ String.concat "/" (y :: parts)).
  destruct x as [|c x]; [done|]. rewrite string_app_cons.
  split; [done|]. intros [= -> Heq]. by destruct x.
Qed.

(** ** The folder sizes, recomputed from the file records *)

Local Ltac string_norm :=
  repeat (rewrite string_app_cons || rewrite string_app_nil_l).

Lemma prefix_cons c s d t :
  String.prefix (String c s) (String d t)
  = if decide (c = d) then String.prefix s t else false.
Proof. simpl. destruct (ascii_dec c d); by case_decide. Qed.

Lemma prefix_app_same a b c :
  String.prefix (a +:+ b) (a +:+ c) = String.prefix b c.
Proof.
  induction a as [|x a IH]; [done|].
  by rewrite !string_app_cons, prefix_cons, decide_True.
Qed.

Lemma prefix_nil_r s : String.prefix s "" = true → s = "".
Proof. by destruct s. Qed.

(** A prefix that has a slash after [x] puts a slash into a string that
    it starts. *)
Lemma prefix_slash_contains x s y :
  String.prefix (x +:+ "/" +:+ s) y = true → PyStr.contains "/" y = true.
Proof.
  revert y. induction x as [|c x IH]; intros y.
  - destruct y as [|d y]; [done|]. string_norm.
    rewrite prefix_cons. case_decide; [|done].
    subst d. by intros _.
  - destruct y as [|d y]; [done|]. string_norm.
    rewrite prefix_cons. case_decide; [|done].
    intros Hp%IH. simpl. rewrite Hp. apply orb_true_r.
Qed.

(** Two names without a slash that are followed by a slash at the start of
    the same string are the same name. *)
Lemma prefix_slash_split x y s t :
  PyStr.contains "/" x = false → PyStr.contains "/" y = false →
  String.prefix (x +:+ "/" +:+ s) (y +:+ "/" +:+ t) = true →
  x = y ∧ String.prefix s t = true.
Proof.
  revert y. induction x as [|c x IH]; intros [|d y] Hx Hy.
  - string_norm. rewrite prefix_cons. by rewrite decide_True.
  - string_norm. rewrite prefix_cons.
    case_decide; [|done]. subst d. simpl in Hy.
    rewrite ?Ascii.eqb_refl in Hy. done.
  - string_norm. rewrite prefix_cons.
    case_decide; [|done]. subst c. simpl in Hx.
    rewrite ?Ascii.eqb_refl in Hx. done.
  - string_norm. rewrite prefix_cons. case_decide; [|done]. subst d.
    simpl in Hx, Hy.
    apply orb_false_iff in Hx as [_ Hx]. apply orb_false_iff in Hy as [_ Hy].
    intros [-> ?]%IH; done.
Qed.

Lemma valid_name_no_slash s :
  valid_name s = true → PyStr.contains "/" s = false.
Proof. unfold valid_name. intros [_ ?%negb_true_iff]%andb_true_iff. done. Qed.

Lemma as_posix_cons x parts :
  parts ≠ [] →
  PurePath.as_posix (x :: parts) = x +:+ "/" +:+ PurePath.as_posix parts.
Proof. by destruct parts. Qed.

Lemma as_posix_app q rest :
  q ≠ [] → rest ≠ [] →
  PurePath.as_posix (q ++ rest)
  = PurePath.as_posix q +:+ "/" +:+ PurePath.as_posix rest.
Proof.
  intros Hq Hrest. induction q as [|x q IH]; [done|].
  destruct q as [|y q].
  - simpl app. by rewrite as_posix_cons.
  - change ((x :: y :: q) ++ rest) with (x :: ((y :: q) ++ rest)).
    rewrite as_posix_cons by done. rewrite IH by done.
    rewrite (as_posix_cons x (y :: q)) by done.
    by rewrite !string_app_assoc.
Qed.

(** With real names, the path of [q] followed by a slash starts the path
    of [l] exactly when [q] is a proper prefix of the parts of [l]. *)
Lemma startswith_as_posix q l :
  q ≠ [] →
  Forall (λ s, valid_name s = true) q → Forall (λ s, valid_name s = true) l →
  PyStr.startswith (PurePath.as_posix q +:+ "/") (PurePath.as_posix l) = true
  ↔ ∃ rest, rest ≠ [] ∧ l = q ++ rest.
Proof.
  unfold PyStr.startswith. intros Hq Hvq Hvl. split.
  - revert l Hvl. induction Hvq as [|x q Hx Hvq IH]; [done|]. intros l Hvl.
    destruct Hvl as [|y l Hy Hvl].
    { intros Hp%prefix_nil_r. destruct q; destruct x; done. }
    apply valid_name_no_slash in Hx as Hxs.
    apply valid_name_no_slash in Hy as Hys.
    destruct l as [|z l].
    { intros Hp. exfalso.
      assert (∃ s, PurePath.as_posix (x :: q) +:+ "/" = x +:+ "/" +:+ s)
        as [s Hs].
      { destruct q; [by exists ""|].
        rewrite as_posix_cons, !string_app_assoc by done. by eexists. }
      rewrite Hs in Hp. apply prefix_slash_contains in Hp.
      change (PurePath.as_posix [y]) with y in Hp. congruence. }
    rewrite (as_posix_cons y) by done.
    destruct q as [|x' q].
    + change (PurePath.as_posix [x]) with x.
      replace (x +:+ "/") with (x +:+ "/" +:+ "") by by rewrite string_app_nil_r.
      intros [-> _]%prefix_slash_split; [|done..].
      by exists (z :: l).
    + rewrite as_posix_cons, !string_app_assoc by done.
      intros [-> Hp]%prefix_slash_split; [|done..].
      destruct (IH ltac:(done) (z :: l) Hvl Hp) as (rest & Hrest & ->).
      by exists rest.
  - intros (rest & Hrest & ->). rewrite as_posix_app by done.
    replace (PurePath.as_posix q +:+ "/")
      with (PurePath.as_posix q +:+ "/" +:+ "") by by rewrite string_app_nil_r.
    rewrite !prefix_app_same. by destruct (PurePath.as_posix rest).
Qed.

Lemma file_sizes_account_all files st :
  file_sizes (account_all files st) = file_sizes st ++ (record_of <$> files).
Proof.
  revert st. induction files as [|[[rel f] sz] files IH]; intros st.
  - by rewrite app_nil_r.
  - change (account_all (((rel, f), sz) :: files) st)
      with (account_all files (account rel f sz st)).
    rewrite IH. simpl. by rewrite <- app_assoc.
Qed.

Lemma visible_files_valid_path ignores p :
  valid_names p = true →
  ∀ top x, Forall (λ s, valid_name s = true) top →
    x ∈ visible_files ignores top p →
    Forall (λ s, valid_name s = true) (x.1.1 ++ [x.1.2]).
Proof.
  induction p as [| |n es IH] using node_induction; intros Hv top x Htop;
    [by intros ?%elem_of_nil..|].
  apply valid_names_dir in Hv.
  cbn [visible_files]. rewrite elem_of_app, list_elem_of_omap, list_elem_of_bind.
  rewrite Forall_forall in IH, Hv.
  intros [(e & He & Hx)|(e & Hx & He)].
  - destruct (Hv e He) as [Hn _].
    destruct e as [f [sz|sz| |b]|d ls]; simpl in Hx; try discriminate;
      (case_decide; [discriminate|]); injection Hx as <-; simpl;
      (apply Forall_app; split; [done|]); by apply Forall_singleton.
  - case_decide; [by apply elem_of_nil in Hx|].
    destruct (Hv e He) as [Hn Hve].
    apply (IH e He Hve (top ++ [Path.name e])); [|done].
    apply Forall_app. split; [done|]. by apply Forall_singleton.
Qed.

(** For a folder key and a file with real names, the test on the path of
    the record is the test on the parts. *)
Lemma startswith_ancestor q rel f :
  q ≠ [] →
  Forall (λ s, valid_name s = true) q →
  Forall (λ s, valid_name s = true) (rel ++ [f]) →
  PyStr.startswith (PurePath.as_posix q +:+ "/")
                   (PurePath.as_posix (rel ++ [f]))
  = is_ancestorb (PurePath.as_posix q) rel.
Proof.
  intros Hq Hvq Hvl. apply eq_true_iff_eq.
  rewrite startswith_as_posix, is_ancestorb_spec by done. split.
  - intros (rest & Hrest & Heq). exists q. split_and!; [done| |done].
    destruct rest as [|r rest _] using rev_ind; [done|].
    rewrite app_assoc in Heq. apply app_inj_tail in Heq as [-> _].
    by exists rest.
  - intros (parts & Hparts & [k ->] & Heq).
    assert (PyStr.startswith (PurePath.as_posix q +:+ "/")
              (PurePath.as_posix ((parts ++ k) ++ [f])) = true) as Hs.
    { rewrite Heq, <- app_assoc, as_posix_app by (done || by destruct k).
      unfold PyStr.startswith.
      replace (PurePath.as_posix parts +:+ "/")
        with (PurePath.as_posix parts +:+ "/" +:+ "")
        by by rewrite string_app_nil_r.
      rewrite !prefix_app_same. by destruct (PurePath.as_posix (k ++ [f])). }
    by apply startswith_as_posix in Hs.
Qed.

(** The brute-force size of a folder key is the same whether it is
    computed from the tree or from the file records. *)
Lemma folder_total_of_records_visible root ignores q :
  well_formed root = true →
  q ≠ [] → Forall (λ s, valid_name s = true) q →
  folder_total_of_records (file_sizes (gather_loop root ignores))
                          (PurePath.as_posix q)
  = folder_total ignores root (PurePath.as_posix q).
Proof.
  intros [Hu Hv]%andb_true_iff Hq Hvq.
  rewrite gather_loop_visible by done.
  rewrite file_sizes_account_all. simpl.
  unfold folder_total_of_records, folder_total.
  rewrite <- list_fmap_compose. f_equal.
  apply list_fmap_ext. intros i x Hx%list_elem_of_lookup_2.
  pose proof (visible_files_valid_path ignores root Hv [] x (Forall_nil_2 _) Hx).
  destruct x as [[rel f] sz]. simpl in *.
  by rewrite startswith_ancestor.
Qed.

(** C1. In a tree that a filesystem can hold, the value that the
    aggregator stores under a folder key [F] is the sum of the sizes of
    the files that count (not excluded, under no excluded directory, size
    readable) whose directory has [F] as the path of one of its non-empty
    prefixes; it is also the sum of the sizes of the file records whose
    path starts with [F] and a slash; every key is such an ancestor of a
    file that counts, so the root, whose relative path is empty, is never
    a key.  Conversely every file that counts adds its size to every
    folder above it: the path of each non-empty prefix of its directory,
    from the first part down to the directory itself, is a key of the
    table, with that sum as its value. *)
Theorem folder_size_is_recursive_sum (root : node) (ignores : gset string) :
  well_formed root = true →
  (∀ F v,
     PyDict.get F (folder_sizes (gather_loop root ignores)) = Some v →
     v = folder_total ignores root F
     ∧ v = folder_total_of_records (file_sizes (gather_loop root ignores)) F
     ∧ (∃ rel_dir f sz,
          (rel_dir, f, sz) ∈ visible_files ignores [] root
          ∧ is_ancestor F rel_dir)
     ∧ F ≠ "" ∧ F ≠ ".")
  ∧ (∀ rel_dir f sz parts,
       (rel_dir, f, sz) ∈ visible_files ignores [] root →
       parts ≠ [] → parts `prefix_of` rel_dir →
       PyDict.get (PurePath.as_posix parts)
                  (folder_sizes (gather_loop root ignores))
       = Some (folder_total ignores root (PurePath.as_posix parts))).
Proof.
  intros Hwf. pose proof Hwf as [Hu Hv]%andb_true_iff.
  pose proof (λ F, getz_account_all F (visible_files ignores [] root) initial)
    as Hsum.
  split.
  - intros F v Hget.
    rewrite gather_loop_visible in Hget by done.
    specialize (Hsum F).
    unfold getz at 1 in Hsum. rewrite Hget in Hsum. simpl in Hsum.
    split; [done|].
    destruct (proj1 (get_account_all_is_Some F (visible_files ignores [] root)
                        initial)) as [(x & Hx & Hanc)|[? ?]];
      [by rewrite Hget| |done].
    apply is_ancestorb_spec in Hanc.
    pose proof (visible_files_valid ignores root Hv [] x (Forall_nil_2 _) Hx)
      as Hall.
    assert (∃ parts, parts ≠ [] ∧ Forall (λ s, valid_name s = true) parts
                     ∧ F = PurePath.as_posix parts) as (q & Hq & Hvq & HF).
    { destruct Hanc as (parts & Hne & [k Hk] & ->). exists parts.
      rewrite Hk in Hall. by apply Forall_app in Hall as [? _]. }
    split_and!.
    + rewrite Hsum, HF. symmetry. by apply folder_total_of_records_visible.
    + destruct x as [[rel f] sz]. by exists rel, f, sz.
    + rewrite HF. by apply as_posix_valid.
    + rewrite HF. by apply as_posix_valid.
  - intros rel_dir f sz parts Hx Hne Hpre.
    rewrite gather_loop_visible by done.
    specialize (Hsum (PurePath.as_posix parts)).
    destruct (proj2 (get_account_all_is_Some (PurePath.as_posix parts)
                       (visible_files ignores [] root) initial)) as [v Hget].
    { left. exists (rel_dir, f, sz). split; [done|].
      apply is_ancestorb_spec. by exists parts. }
    rewrite Hget. f_equal.
    unfold getz at 1 in Hsum. by rewrite Hget in Hsum.
Qed.

(** ** Python's [sorted] *)

Section sorted_facts.
Context {A K : Type} (key : A → K) (leb : K → K → bool).
Hypothesis leb_total : ∀ a b, leb a b = true ∨ leb b a = true.
Hypothesis leb_trans : ∀ a b c, leb a b = true → leb b c = true → leb a c = true.

#[local] Abbreviation key_le := (key_le key leb).

Lemma leb_refl a : leb a a = true.
Proof. by destruct (leb_total a a). Qed.

Lemma insert_sorted_perm x l : insert_sorted key leb x l ≡ₚ x :: l.
Proof.
  induction l as [|y l IH]; simpl; [done|].
  destruct (leb (key x) (key y)); [done|].
  rewrite IH. apply Permutation_swap.
Qed.

Lemma sorted_perm l : sorted key leb l ≡ₚ l.
Proof.
  induction l as [|x l IH]; simpl; [done|].
  by rewrite insert_sorted_perm, IH.
Qed.

Lemma elem_of_sorted x l : x ∈ sorted key leb l ↔ x ∈ l.
Proof. by rewrite sorted_perm. Qed.

Lemma sorted_length l : length (sorted key leb l) = length l.
Proof. by rewrite sorted_perm. Qed.

Lemma insert_sorted_sorted x l :
  StronglySorted key_le l → StronglySorted key_le (insert_sorted key leb x l).
Proof.
  induction 1 as [|y l Hl IH Hy]; simpl.
  - repeat constructor.
  - destruct (leb (key x) (key y)) eqn:Hxy.
    + constructor; [by constructor|].
      constructor; [done|].
      eapply Forall_impl; [done|]. intros z Hz. by eapply leb_trans.
    + constructor; [done|].
      rewrite insert_sorted_perm. constructor; [|done].
      unfold key_le. destruct (leb_total (key x) (key y)); congruence.
Qed.

Lemma sorted_sorted l : StronglySorted key_le (sorted key leb l).
Proof.
  induction l as [|x l IH]; simpl; [constructor|].
  by apply insert_sorted_sorted.
Qed.

(** Stability: the elements of one key keep their order. *)
Lemma insert_sorted_stable `{!EqDecision K} k x l :
  filter (λ y, key y = k) (insert_sorted key leb x l)
  = filter (λ y, key y = k) (x :: l).
Proof.
  induction l as [|y l IH]; simpl; [done|].
  destruct (leb (key x) (key y)) eqn:Hxy; [done|].
  rewrite (filter_cons _ y), IH, !filter_cons.
  destruct (decide (key y = k)) as [Hy|Hy]; [|done].
  destruct (decide (key x = k)) as [Hx|Hx]; [|done].
  rewrite Hx, Hy, leb_refl in Hxy. done.
Qed.

Lemma sorted_stable `{!EqDecision K} k l :
  filter (λ y, key y = k) (sorted key leb l) = filter (λ y, key y = k) l.
Proof.
  induction l as [|x l IH]; simpl; [done|].
  by rewrite insert_sorted_stable, !filter_cons, IH.
Qed.

(** Sorting commutes with dropping and replacing elements, as long as
    the keys stay. *)
Lemma insert_sorted_omap {B} (key' : B → K) (f : A → option B) x l :
  (∀ a b, f a = Some b → key' b = key a) →
  StronglySorted key_le l →
  omap f (insert_sorted key leb x l)
  = match f x with
    | Some y => insert_sorted key' leb y (omap f l)
    | None => omap f l
    end.
Proof.
  intros Hkey. induction 1 as [|y l Hl IH Hy]; simpl.
  - by destruct (f x).
  - destruct (leb (key x) (key y)) eqn:Hxy; simpl.
    + destruct (f x) as [x'|] eqn:Hx; [|done].
      destruct (f y) as [y'|] eqn:Hfy; simpl.
      * by rewrite (Hkey _ _ Hx), (Hkey _ _ Hfy), Hxy.
      * clear IH. induction Hy as [|z l Hz Hy IH]; simpl; [done|].
        apply StronglySorted_inv in Hl as [Hl Hzl].
        destruct (f z) as [z'|] eqn:Hfz; simpl.
        -- rewrite (Hkey _ _ Hx), (Hkey _ _ Hfz).
           by rewrite (leb_trans _ _ _ Hxy Hz).
        -- by apply IH.
    + destruct (f y) as [y'|] eqn:Hfy; simpl;
        change (list_omap A B f) with (omap (M:=list) f); rewrite IH;
        destruct (f x) as [x'|] eqn:Hx; simpl; try done.
      by rewrite (Hkey _ _ Hx), (Hkey _ _ Hfy), Hxy.
Qed.

Lemma sorted_omap {B} (key' : B → K) (f : A → option B) l :
  (∀ a b, f a = Some b → key' b = key a) →
  omap f (sorted key leb l) = sorted key' leb (omap f l).
Proof.
  intros Hkey. induction l as [|x l IH]; simpl; [done|].
  rewrite (insert_sorted_omap key') by (done || apply sorted_sorted).
  destruct (f x); simpl; by rewrite IH.
Qed.

End sorted_facts.
Lemma string_leb_trans (a b c : string) :
  String.leb a b = true → String.leb b c = true → String.leb a c = true.
Proof.
  intros H1%Is_true_true H2%Is_true_true. apply Is_true_true.
  change (String.le a c). by transitivity b.
Qed.

Lemma tuple_leb_total a b : tuple_leb a b = true ∨ tuple_leb b a = true.
Proof.
  destruct a as [[] s], b as [[] t]; unfold tuple_leb; simpl;
    auto using String.leb_total.
Qed.

Lemma tuple_leb_trans a b c :
  tuple_leb a b = true → tuple_leb b c = true → tuple_leb a c = true.
Proof.
  destruct a as [[] s], b as [[] t], c as [[] u]; unfold tuple_leb; simpl;
    try done; apply string_leb_trans.
Qed.

Lemma Z_geb_total (a b : Z) : (b <=? a) = true ∨ (a <=? b) = true.
Proof. lia. Qed.

Lemma Z_geb_trans (a b c : Z) :
  (b <=? a) = true → (c <=? b) = true → (c <=? a) = true.
Proof. lia. Qed.

(** ** The top-N selections *)

Section stable_unique.
Context {A K : Type} `{!EqDecision K} (key : A → K) (leb : K → K → bool).
Hypothesis leb_antisym : ∀ a b, leb a b = true → leb b a = true → a = b.

(** A list sorted by key is determined by the order of the elements of
    each key: whatever stable algorithm Python's [sorted] runs, it returns
    what [sorted] here returns. *)
Lemma stable_sorted_unique (s1 s2 : list A) :
  StronglySorted (key_le key leb) s1 → StronglySorted (key_le key leb) s2 →
  (∀ k, filter (λ x, key x = k) s1 = filter (λ x, key x = k) s2) →
  s1 = s2.
Proof.
  intros Hs1. revert s2. induction Hs1 as [|x s1 Hs1 IH Hx]; intros s2 Hs2 Hf.
  - destruct s2 as [|y s2]; [done|].
    specialize (Hf (key y)). rewrite filter_cons, decide_True in Hf by done.
    by rewrite filter_nil in Hf.
  - destruct s2 as [|y s2].
    { specialize (Hf (key x)). rewrite filter_cons, decide_True in Hf by done.
      by rewrite filter_nil in Hf. }
    apply StronglySorted_inv in Hs2 as [Hs2 Hy].
    assert (x ∈ y :: s2) as Hxin.
    { eapply (list_elem_of_filter (λ z, key z = key x)).
      rewrite <- Hf, filter_cons, decide_True by done. left. }
    assert (y ∈ x :: s1) as Hyin.
    { eapply (list_elem_of_filter (λ z, key z = key y)).
      rewrite Hf, filter_cons, decide_True by done. left. }
    assert (key x = key y) as Hk.
    { apply elem_of_cons in Hxin as [->|Hxin]; [done|].
      apply elem_of_cons in Hyin as [->|Hyin]; [done|].
      rewrite Forall_forall in Hx, Hy.
      apply leb_antisym; [by apply Hx|by apply Hy]. }
    assert (x = y) as <-.
    { specialize (Hf (key x)).
      rewrite !filter_cons, decide_True in Hf by done.
      rewrite decide_True in Hf by done. by injection Hf. }
    f_equal. apply IH; [done|]. intros k. specialize (Hf k).
    rewrite !filter_cons in Hf. case_decide; [by injection Hf|done].
Qed.
End stable_unique.

(** [d[k] += v] keeps the keys in the order of their first insertion. *)
Lemma keys_add_order k v d :
  PyDict.keys (PyDict.add k v d)
  = if decide (k ∈ PyDict.keys d) then PyDict.keys d else PyDict.keys d ++ [k].
Proof.
  unfold PyDict.keys. induction d as [|[k0 v0] d IH].
  - cbn [PyDict.add fmap list_fmap fst].
    by rewrite decide_False by apply not_elem_of_nil.
  - cbn [PyDict.add]. destruct (decide (k0 = k)) as [->|Hne].
    + rewrite !fmap_cons. cbn [fst]. by rewrite decide_True by left.
    + rewrite !fmap_cons. cbn [fst]. rewrite IH.
      destruct (decide (k ∈ d.*1)) as [Hin|Hin].
      * by rewrite decide_True by (by right).
      * rewrite decide_False; [done|].
        intros [?|?]%elem_of_cons; [by subst|done].
Qed.

(** [sorted(items, key=size, reverse=True)] is a rearrangement of the
    items, by size descending, that keeps the items of one size in the
    order of [items]. *)
Lemma sorted_reverse_by_size (items : list (string * Z)) :
  let s := sorted_reverse snd Z.leb items in
  s ≡ₚ items
  ∧ StronglySorted (λ x y, y.2 ≤ x.2) s
  ∧ ∀ v, filter (λ x, x.2 = v) s = filter (λ x, x.2 = v) items.
Proof.
  unfold sorted_reverse. split_and!.
  - apply sorted_perm.
  - rewrite <- (list_fmap_id (sorted _ _ items)).
    eapply StronglySorted_fmap;
      [|apply (sorted_sorted snd (λ a b, b <=? a) Z_geb_total Z_geb_trans)].
    intros x y. unfold key_le. simpl. lia.
  - intros v. apply (sorted_stable snd (λ a b, b <=? a) Z_geb_total).
Qed.

(** C4. The top 15 files and the top 10 folders are the first items of
    the file records and of the folder table, sorted by size descending
    with the items of equal size kept in the order they have there; a
    record is appended when its file is met and a folder key keeps the
    place of its first insertion, so that order is the order of
    encounter; on the files a, b, c, d of sizes 100, 50, 100, 10 the top 2
    are a and c. *)
Theorem top_n_by_size_stable (root : node) (ignores : gset string) :
  let st := gather_loop root ignores in
  let stats := gather_stats root ignores in
  (∃ s, Stats.top_files stats = take 15 s
        ∧ s ≡ₚ file_sizes st
        ∧ StronglySorted (λ x y, y.2 ≤ x.2) s
        ∧ ∀ v, filter (λ x, x.2 = v) s = filter (λ x, x.2 = v) (file_sizes st))
  ∧ (∃ s, Stats.top_folders stats = take 10 s
          ∧ s ≡ₚ folder_sizes st
          ∧ StronglySorted (λ x y, y.2 ≤ x.2) s
          ∧ ∀ v, filter (λ x, x.2 = v) s
                 = filter (λ x, x.2 = v) (folder_sizes st))
  ∧ (∀ rel_dir f sz st',
       file_sizes (account rel_dir f sz st')
       = file_sizes st' ++ [(PurePath.as_posix (rel_dir ++ [f]), sz)])
  ∧ (∀ k v d,
       PyDict.keys (PyDict.add k v d)
       = if decide (k ∈ PyDict.keys d) then PyDict.keys d
         else PyDict.keys d ++ [k])
  ∧ file_sizes (gather_loop four_files ∅)
    = [("a", 100); ("b", 50); ("c", 100); ("d", 10)]
  ∧ top_n 2 (file_sizes (gather_loop four_files ∅)) = [("a", 100); ("c", 100)].
Proof.
  simpl. split_and!.
  - exists (sorted_reverse snd Z.leb (file_sizes (gather_loop root ignores))).
    split; [done|]. apply sorted_reverse_by_size.
  - exists (sorted_reverse snd Z.leb (folder_sizes (gather_loop root ignores))).
    split; [done|]. apply sorted_reverse_by_size.
  - done.
  - apply keys_add_order.
  - by vm_compute.
  - by vm_compute.
Qed.

(** ** The classifier *)





(** ** The two size formatters *)

(** The [int] 1024 converts to the float 1024.0 exactly. *)
Lemma round_int_1024 : PyFloat.round_int 1024 = PyFloat.lit_1024.
Proof. reflexivity. Qed.

Lemma human_loops_agree us size :
  human_size_loop us size = human_readable_loop us size.
Proof.
  revert size. induction us as [|u us IH]; intros size; simpl; [done|].
  unfold PyFloat.ltb_int, PyFloat.div_int. rewrite round_int_1024.
  by rewrite IH.
Qed.

(** ** The renderer: what [helper] appends *)

Lemma helper_eq depth ignores path prefix current_depth lines :
  helper depth ignores path prefix current_depth lines =
  if decide (current_depth > depth) then lines
  else let entries := shown_entries ignores path in
       foldl (λ lines ie,
                let is_last := is_last_at (length entries) ie.1 in
                let lines := lines ++ [entry_line prefix is_last ie.2] in
                if entry_is_dir ie.2 then
                  helper depth ignores ie.2 (prefix +:+ extension is_last)
                         (current_depth + 1) lines
                else lines)
             lines (enumerate entries).
Proof.
  rewrite helper_equation_1. unfold helper_unfold_clause_1, shown_entries.
  destruct (Z_gt_dec current_depth depth); case_decide; try done.
  by destruct (sorted_entries path).
Qed.

(** The [try] block returns the listing sorted by [entry_key], and raises
    when the listing or one of the keys does. *)
Lemma sorted_entries_eq path :
  sorted_entries path =
  ps ← Path.iterdir path;
  if keys_readable ps then Some (sorted entry_key tuple_leb ps) else None.
Proof.
  unfold sorted_entries. destruct (Path.iterdir path) as [ps|]; [|done].
  simpl. destruct (keys_readable ps) eqn:Hr.
  - assert (mapM (λ p, k ← sort_key p; Some (k, p)) ps
            = Some ((λ p, (entry_key p, p)) <$> ps)) as ->.
    { apply mapM_Some, Forall2_fmap_r, Forall_Forall2_diag, Forall_forall.
      intros p Hp%list_elem_of_In. unfold keys_readable in Hr.
      rewrite forallb_forall in Hr. apply Hr, bool_decide_eq_true in Hp.
      unfold sort_key, entry_key. simpl. destruct Hp as [b Hb].
      rewrite Hb. by destruct b. }
    simpl. f_equal.
    rewrite (list_fmap_alt (λ p, (entry_key p, p))).
    rewrite <- (sorted_omap entry_key tuple_leb tuple_leb_total tuple_leb_trans
                  fst) by (by intros a b [= <-]).
    rewrite <- list_fmap_alt, <- list_fmap_compose. apply list_fmap_id.
  - destruct (mapM _ ps) as [keyed|] eqn:Hm; [|done]. exfalso.
    apply mapM_Some in Hm. apply not_true_iff_false in Hr. apply Hr.
    unfold keys_readable. apply forallb_forall. intros p Hp%list_elem_of_In.
    apply bool_decide_eq_true.
    apply list_elem_of_lookup in Hp as [i Hi].
    destruct (Forall2_lookup_l _ _ _ _ _ Hm Hi) as (kp & _ & Hkp).
    unfold sort_key in Hkp. by destruct (Path.is_file p).
Qed.

Lemma shown_entries_eq ignores path :
  shown_entries ignores path =
  match Path.iterdir path with
  | Some ps =>
      if keys_readable ps
      then filter (λ e, Path.name e ∉ ignores) (sorted entry_key tuple_leb ps)
      else []
  | None => []
  end.
Proof.
  unfold shown_entries. rewrite sorted_entries_eq.
  destruct (Path.iterdir path) as [ps|]; [|done]. simpl.
  by destruct (keys_readable ps).
Qed.

Lemma entry_is_dir_Dir e : entry_is_dir e = true ↔ ∃ n l, e = Dir n l.
Proof.
  unfold entry_is_dir. rewrite bool_decide_eq_true.
  destruct e as [f [| | |]|d l]; simpl; split; try done;
    try (by intros (? & ? & ?)). by eexists _, _.
Qed.

(** Induction along the recursion of [helper]: [current_depth] grows by
    one in each call and no call is made beyond [depth]. *)
Lemma depth_induction (depth : Z) (P : Z → Prop) :
  (∀ current_depth,
     (current_depth ≤ depth → P (current_depth + 1)) → P current_depth) →
  ∀ current_depth, P current_depth.
Proof.
  intros Hstep current_depth.
  remember (Z.to_nat (depth + 1 - current_depth)) as k eqn:Hk.
  revert current_depth Hk.
  induction k as [|k IH]; intros current_depth Hk; apply Hstep; intros Hle.
  - lia.
  - apply IH. lia.
Qed.

Lemma foldl_appends {A} (f : list string → A → list string)
    (g : A → list string) (l : list A) :
  (∀ a x, f a x = a ++ g x) → ∀ a, foldl f a l = a ++ (l ≫= g).
Proof.
  intros Hf. induction l as [|x l IH]; intros a; simpl.
  - by rewrite app_nil_r.
  - by rewrite IH, Hf, <- app_assoc.
Qed.

Lemma helper_step_appends depth ignores prefix current_depth n :
  (∀ path prefix lines,
     helper depth ignores path prefix (current_depth + 1) lines
     = lines ++ helper depth ignores path prefix (current_depth + 1) []) →
  ∀ lines (ie : nat * node),
    (let is_last := is_last_at n ie.1 in
     let lines := lines ++ [entry_line prefix is_last ie.2] in
     if entry_is_dir ie.2 then
       helper depth ignores ie.2 (prefix +:+ extension is_last)
              (current_depth + 1) lines
     else lines)
    = lines ++ entry_lines depth ignores prefix current_depth n ie.
Proof.
  intros IH lines ie. unfold entry_lines. simpl.
  destruct (entry_is_dir ie.2); [|done].
  by rewrite IH, <- app_assoc.
Qed.

(** [helper] only appends to [lines]. *)
Lemma helper_appends depth ignores path prefix current_depth lines :
  helper depth ignores path prefix current_depth lines
  = lines ++ helper depth ignores path prefix current_depth [].
Proof.
  revert path prefix lines.
  induction current_depth as [current_depth IH] using (depth_induction depth).
  intros path prefix lines.
  rewrite (helper_eq _ _ _ _ _ lines), (helper_eq _ _ _ _ _ []).
  case_decide; [by rewrite app_nil_r|].
  cbv zeta.
  assert (current_depth ≤ depth) as Hle by lia. specialize (IH Hle).
  by rewrite !(foldl_appends _ _ _ (helper_step_appends _ _ _ _ _ IH)).
Qed.

(** The lines of a directory: for each shown entry in order, its line and
    then its subtree. *)
Lemma helper_lines depth ignores path prefix current_depth lines :
  helper depth ignores path prefix current_depth lines
  = lines ++
    if decide (current_depth > depth) then []
    else let entries := shown_entries ignores path in
         enumerate entries
           ≫= entry_lines depth ignores prefix current_depth (length entries).
Proof.
  rewrite helper_appends. f_equal. rewrite helper_eq.
  case_decide; [done|].
  cbv zeta.
  by rewrite (foldl_appends _ _ _
                (helper_step_appends _ _ _ _ _
                   (λ p pre l, helper_appends _ _ p pre _ l))).
Qed.

(** ** Visible entries *)

Lemma visible_not_ignored ignores root parts e :
  visible ignores root parts e → Forall (λ s, s ∉ ignores) parts.
Proof.
  induction 1 as [d es e Hd He Hn|d es c parts e Hd Hc Hn _ IH].
  - by apply Forall_singleton.
  - by apply Forall_cons.
Qed.

Lemma visible_snoc ignores root top p es e :
  visible ignores root top p →
  Path.iterdir p = Some es → e ∈ es → Path.name e ∉ ignores →
  visible ignores root (top ++ [Path.name e]) e.
Proof.
  intros Hvis Hp He Hn.
  induction Hvis as [d ds c Hd Hc Hcn|d ds c parts q Hd Hc Hcn _ IH].
  - simpl. eapply visible_below; [done..|]. by eapply visible_entry.
  - simpl. eapply visible_below; [done..|]. by apply IH.
Qed.

Lemma reaches_child ignores root top p es e :
  reaches ignores root top p →
  Path.iterdir p = Some es → e ∈ es → Path.name e ∉ ignores →
  visible ignores root (top ++ [Path.name e]) e.
Proof.
  intros [[-> ->]|Hvis] Hp He Hn.
  - by eapply visible_entry.
  - by eapply visible_snoc.
Qed.

Lemma visible_last ignores root parts e :
  visible ignores root parts e → last parts = Some (Path.name e).
Proof.
  induction 1 as [|d es c parts e Hd Hc Hn Hvis IH]; [done|].
  destruct parts; [by inversion Hvis|]. done.
Qed.

(** ** The entries that the renderer shows *)

Lemma elem_of_shown_entries ignores path e :
  e ∈ shown_entries ignores path ↔
  ∃ ps, Path.iterdir path = Some ps ∧ keys_readable ps = true
        ∧ e ∈ ps ∧ Path.name e ∉ ignores.
Proof.
  rewrite shown_entries_eq. destruct (Path.iterdir path) as [ps|].
  - destruct (keys_readable ps) eqn:Hr.
    + rewrite list_elem_of_filter, elem_of_sorted. split.
      * intros [? ?]. exists ps. by split_and!.
      * intros (? & [= <-] & _ & ? & ?). by split.
    + split; [by intros ?%elem_of_nil|].
      intros (? & [= <-] & ? & _). congruence.
  - split; [by intros ?%elem_of_nil | by intros (? & ? & _)].
Qed.

(** On an entry that the loop of [helper] walks, [is_dir] and [is_file]
    return. *)
Lemma shown_entry_stat ignores path e :
  e ∈ shown_entries ignores path →
  is_Some (Path.is_dir e) ∧ is_Some (Path.is_file e).
Proof.
  intros (ps & _ & Hr & He & _)%elem_of_shown_entries.
  unfold keys_readable in Hr. rewrite forallb_forall in Hr.
  apply list_elem_of_In, Hr, bool_decide_eq_true in He.
  split; [|done]. destruct e as [f [sz|sz| |b]|d l]; simpl in *; try done.
Qed.

Lemma elem_of_enumerate {A} (l : list A) i x :
  (i, x) ∈ enumerate l ↔ l !! i = Some x.
Proof.
  unfold enumerate. rewrite elem_of_lookup_imap. split.
  - by intros (j & y & [= -> ->] & ?).
  - intros ?. by exists i, x.
Qed.

Lemma concat_blocks_snoc blocks b :
  String.concat "" (blocks ++ [b]) = String.concat "" blocks +:+ b.
Proof.
  induction blocks as [|x blocks IH]; [done|].
  destruct blocks as [|y blocks]; [done|].
  change (String.concat "" ((x :: y :: blocks) ++ [b]))
    with (x +:+ "" +:+ String.concat "" ((y :: blocks) ++ [b])).
  change (String.concat "" (x :: y :: blocks))
    with (x +:+ "" +:+ String.concat "" (y :: blocks)).
  by rewrite IH, !string_app_nil_l, string_app_assoc.
Qed.

(** ** Every rendered line is the line of a visible entry *)

Lemma helper_renders ignores root depth current_depth :
  ∀ path top blocks lines,
    Z.of_nat (length top) + 1 = current_depth →
    length blocks = length top →
    Forall is_block blocks →
    reaches ignores root top path →
    Forall (renders ignores root depth) lines →
    Forall (renders ignores root depth)
           (helper depth ignores path (String.concat "" blocks)
                   current_depth lines).
Proof.
  induction current_depth as [current_depth IH] using (depth_induction depth).
  intros path top blocks lines Hcd Hlen Hblocks Hreach Hlines.
  rewrite helper_lines. apply Forall_app. split; [done|].
  case_decide as Hdepth; [done|].
  cbv zeta. apply Forall_forall. intros line.
  rewrite list_elem_of_bind. intros ([i e] & Hline & Hie).
  apply elem_of_enumerate, list_elem_of_lookup_2, elem_of_shown_entries in Hie
    as (ps & Hps & _ & He & Hn).
  pose proof (reaches_child _ _ _ _ _ _ Hreach Hps He Hn) as Hvis.
  unfold entry_lines in Hline. cbn [fst snd] in Hline.
  apply elem_of_cons in Hline as [->|Hline].
  - exists (top ++ [Path.name e]), e, blocks,
      (is_last_at (length (shown_entries ignores path)) i).
    rewrite length_app. simpl. split_and!; [done|lia|lia|done..].
  - destruct (entry_is_dir e); [|by apply elem_of_nil in Hline].
    revert line Hline. apply Forall_forall.
    rewrite <- concat_blocks_snoc.
    apply (IH ltac:(lia) e (top ++ [Path.name e])).
    + rewrite length_app. simpl. lia.
    + rewrite !length_app. simpl. lia.
    + apply Forall_app. split; [done|]. apply Forall_singleton.
      unfold is_block. destruct (is_last_at _ _); auto.
    + by right.
    + done.
Qed.

(** ** The nesting level of a line *)

Lemma after_prefix_app p s : after_prefix p (p +:+ s) = Some s.
Proof.
  induction p as [|c p IH]; [by destruct s|].
  rewrite string_app_cons. simpl. by rewrite Ascii.eqb_refl.
Qed.

Lemma after_prefix_glyphs s :
  after_prefix (connector true) (extension true +:+ s) = None
  ∧ after_prefix (connector false) (extension true +:+ s) = None
  ∧ after_prefix (connector true) (extension false +:+ s) = None
  ∧ after_prefix (connector false) (extension false +:+ s) = None
  ∧ after_prefix (extension true) (extension false +:+ s) = None
  ∧ after_prefix (connector true) (connector false +:+ s) = None.
Proof. done. Qed.

Lemma line_level_from_blocks blocks is_last rest fuel :
  Forall is_block blocks → (length blocks < fuel)%nat →
  line_level_from fuel
    (String.concat "" blocks +:+ connector is_last +:+ rest)
  = Some (S (length blocks)).
Proof.
  intros Hblocks. revert fuel.
  induction Hblocks as [|b blocks Hb Hblocks IH]; intros fuel Hfuel.
  - destruct fuel as [|fuel]; [lia|]. rewrite string_app_nil_l.
    cbn [line_level_from].
    destruct (after_prefix_glyphs rest) as (_ & _ & _ & _ & _ & H6).
    destruct is_last.
    + by rewrite after_prefix_app.
    + by rewrite H6, after_prefix_app.
  - destruct fuel as [|fuel]; [simpl in Hfuel; lia|].
    assert (String.concat "" (b :: blocks) = b +:+ String.concat "" blocks)
      as -> by (destruct blocks; [by rewrite string_app_nil_r|done]).
    rewrite string_app_assoc.
    specialize (IH fuel ltac:(simpl in Hfuel; lia)).
    cbn [line_level_from].
    destruct (after_prefix_glyphs
                (String.concat "" blocks +:+ connector is_last +:+ rest))
      as (H1 & H2 & H3 & H4 & H5 & _).
    destruct Hb as [-> | ->].
    + by rewrite H1, H2, after_prefix_app, IH.
    + by rewrite H3, H4, H5, after_prefix_app, IH.
Qed.

Lemma concat_blocks_length blocks :
  Forall is_block blocks →
  (length blocks ≤ String.length (String.concat "" blocks))%nat.
Proof.
  induction 1 as [|b blocks Hb Hblocks IH]; [done|].
  assert (String.concat "" (b :: blocks) = b +:+ String.concat "" blocks)
    as -> by (destruct blocks; [by rewrite string_app_nil_r|done]).
  rewrite string_length_app. destruct Hb as [-> | ->]; simpl; lia.
Qed.

Lemma line_level_entry_line blocks is_last e :
  Forall is_block blocks →
  line_level (entry_line (String.concat "" blocks) is_last e)
  = Some (S (length blocks)).
Proof.
  intros Hblocks. unfold line_level, entry_line.
  apply line_level_from_blocks; [done|].
  rewrite !string_length_app.
  pose proof (concat_blocks_length blocks Hblocks).
  destruct is_last; simpl; lia.
Qed.

Lemma renders_level ignores root depth line :
  renders ignores root depth line →
  ∃ k, line_level line = Some k ∧ 1 ≤ Z.of_nat k ≤ depth.
Proof.
  intros (parts & e & blocks & is_last & _ & Hdepth & Hlen & Hblocks & ->).
  exists (S (length blocks)). split; [by apply line_level_entry_line|lia].
Qed.

(** The lines of the renderer after the first all belong to visible
    entries within the depth. *)
Lemma scan_tree_depth_bound_aux root depth ignores :
  ∃ rest,
    scan_tree root depth ignores = (Path.name root +:+ "/") :: rest
    ∧ Forall (renders ignores root depth) rest.
Proof.
  unfold scan_tree. rewrite helper_appends. eexists. split; [done|].
  apply (helper_renders ignores root depth 1 root [] []); try done.
  by left.
Qed.

(** C5. The first line of the renderer is the name of the root with the
    trailing separator, whatever the depth; with depth 0 it is the only
    line; and every other line is the line of a visible entry whose path
    below the root has at most [depth] parts, which is also the nesting
    level that its indentation shows. *)
Theorem scan_tree_depth_bound (root : node) (depth : Z) (ignores : gset string) :
  (∃ rest,
     scan_tree root depth ignores = (Path.name root +:+ "/") :: rest
     ∧ Forall (renders ignores root depth) rest
     ∧ Forall (λ line, ∃ k, line_level line = Some k ∧ 1 ≤ Z.of_nat k ≤ depth)
              rest)
  ∧ scan_tree root 0 ignores = [Path.name root +:+ "/"].
Proof.
  split.
  - destruct (scan_tree_depth_bound_aux root depth ignores)
      as (rest & Heq & Hrest).
    exists rest. split_and!; [done..|].
    eapply Forall_impl; [done|]. apply renders_level.
  - unfold scan_tree. by rewrite helper_eq.
Qed.

(** ** The order of the children *)

Lemma StronglySorted_lookup {A} (R : relation A) l i j a b :
  StronglySorted R l → (i < j)%nat →
  l !! i = Some a → l !! j = Some b → R a b.
Proof.
  intros Hs. revert i j.
  induction Hs as [|x l Hs IH Hx]; intros i j Hij Hi Hj; [done|].
  destruct j as [|j]; [lia|]. destruct i as [|i]; simpl in *.
  - injection Hi as ->. rewrite Forall_forall in Hx.
    apply Hx. by eapply list_elem_of_lookup_2.
  - apply (IH i j); [lia|done..].
Qed.

Lemma StronglySorted_filter_2 {A} (R : relation A) (P : A → Prop)
    `{!∀ x, Decision (P x)} l :
  StronglySorted R l → StronglySorted R (filter P l).
Proof.
  induction 1 as [|x l Hs IH Hx]; [constructor|].
  rewrite filter_cons. case_decide; [|done].
  constructor; [done|].
  apply Forall_forall. intros y [_ Hy]%list_elem_of_filter.
  rewrite Forall_forall in Hx. by apply Hx.
Qed.

Lemma filter_comm {A} (P Q : A → Prop)
    `{!∀ x, Decision (P x), !∀ x, Decision (Q x)} (l : list A) :
  filter P (filter Q l) = filter Q (filter P l).
Proof.
  induction l as [|x l IH]; [done|].
  rewrite !(filter_cons _ x).
  destruct (decide (Q x)), (decide (P x));
    rewrite ?filter_cons, ?decide_True, ?decide_False by done; by rewrite IH.
Qed.

(** The entries that [helper] walks in one directory when no key raises:
    the entries that are not excluded, in the order of the key
    [(is_file, lower name)], with entries of equal keys in the order of
    the listing. *)
Lemma shown_entries_sorted ignores path ps :
  Path.iterdir path = Some ps → keys_readable ps = true →
  let entries := shown_entries ignores path in
  entries ≡ₚ filter (λ e, Path.name e ∉ ignores) ps
  ∧ StronglySorted (key_le entry_key tuple_leb) entries
  ∧ ∀ k, filter (λ e, entry_key e = k) entries
         = filter (λ e, entry_key e = k)
                  (filter (λ e, Path.name e ∉ ignores) ps).
Proof.
  intros Hps Hr. cbv zeta. rewrite shown_entries_eq, Hps, Hr. split_and!.
  - by rewrite sorted_perm.
  - apply StronglySorted_filter_2.
    apply sorted_sorted; [apply tuple_leb_total|apply tuple_leb_trans].
  - intros k. rewrite filter_comm, sorted_stable by apply tuple_leb_total.
    apply filter_comm.
Qed.

Lemma is_file_Regular e :
  Path.is_file e = Some true ↔ ∃ n sz, e = File n (Regular sz).
Proof.
  destruct e as [n [sz|sz| |b]|n l]; simpl; split; try done;
    try (by intros (? & ? & ?)). by eexists _, _.
Qed.

(** C8, as the code has it.  In a directory that the renderer visits, the
    lines of the children are appended in the order of the shown entries,
    each followed by its subtree.  When [is_file] raises on an entry of
    the listing, excluded or not, no child is shown.  Otherwise the shown
    entries are the entries that are not excluded, sorted by the key
    ([is_file], lower-cased name): the entries that are not regular files
    (directories, but also special files and dangling links) come before
    the regular files, entries with the same flag are in the order of
    their lower-cased names, and entries with the same key keep the order
    of the listing.  [is_file] holds of regular files only, and on names
    of ASCII characters the lower-cased name folds [A]-[Z]: [a] comes
    before [B], and the dangling link [A] before the directory [c]. *)
Theorem children_sorted_by_key (depth : Z) (ignores : gset string)
    (path : node) (prefix : string) (current_depth : Z) (lines : list string)
    (ps : list node) :
  current_depth ≤ depth → Path.iterdir path = Some ps →
  let entries := shown_entries ignores path in
  helper depth ignores path prefix current_depth lines
  = lines ++ (enumerate entries
                ≫= entry_lines depth ignores prefix current_depth
                               (length entries))
  ∧ (keys_readable ps = false →
       entries = []
       ∧ helper depth ignores path prefix current_depth lines = lines)
  ∧ (keys_readable ps = true →
       entries ≡ₚ filter (λ e, Path.name e ∉ ignores) ps
       ∧ StronglySorted (key_le entry_key tuple_leb) entries
       ∧ (∀ i j a b, entries !! i = Some a → entries !! j = Some b →
            Path.is_file a = Some false → Path.is_file b = Some true →
            (i < j)%nat)
       ∧ (∀ i j a b, (i < j)%nat →
            entries !! i = Some a → entries !! j = Some b →
            Path.is_file a = Path.is_file b →
            String.leb (lower (Path.name a)) (lower (Path.name b)) = true)
       ∧ (∀ k, filter (λ e, entry_key e = k) entries
               = filter (λ e, entry_key e = k)
                        (filter (λ e, Path.name e ∉ ignores) ps)))
  ∧ (∀ e, Path.is_file e = Some true ↔ ∃ n sz, e = File n (Regular sz))
  ∧ (∀ e, PyStr.isascii (Path.name e) = true →
       (entry_key e).2 = PyStr.ascii_lower (Path.name e))
  ∧ shown_entries ∅ (Dir "r" (Some [File "B" (Regular 0); File "a" (Regular 0);
                                    Dir "c" None; File "A" Missing]))
    = [File "A" Missing; Dir "c" None; File "a" (Regular 0);
       File "B" (Regular 0)].
Proof.
  intros Hdepth Hps entries.
  assert (helper depth ignores path prefix current_depth lines
          = lines ++ (enumerate entries
                        ≫= entry_lines depth ignores prefix current_depth
                                       (length entries))) as Hlines.
  { rewrite helper_lines, decide_False by lia. done. }
  split_and!; [done| | |apply is_file_Regular| |].
  - intros Hr.
    assert (entries = []) as Hnil
      by (unfold entries; by rewrite shown_entries_eq, Hps, Hr).
    split; [done|]. rewrite Hlines, Hnil. apply app_nil_r.
  - intros Hr.
    destruct (shown_entries_sorted ignores path ps Hps Hr)
      as (Hperm & Hsorted & Hstable).
    split_and!; [done|done| | |done].
    + intros i j a b Ha Hb Hfa Hfb.
      destruct (decide (i < j)%nat) as [|Hge]; [done|exfalso].
      destruct (decide (i = j)) as [->|Hne].
      * rewrite Ha in Hb. injection Hb as ->. congruence.
      * pose proof (StronglySorted_lookup _ _ j i b a Hsorted ltac:(lia) Hb Ha)
          as Hle.
        unfold key_le, entry_key, tuple_leb in Hle. simpl in Hle.
        by rewrite Hfa, Hfb in Hle.
    + intros i j a b Hij Ha Hb Hsame.
      pose proof (StronglySorted_lookup _ _ i j a b Hsorted Hij Ha Hb) as Hle.
      unfold key_le, entry_key, tuple_leb in Hle. simpl in Hle.
      rewrite Hsame in Hle. by destruct (bool_decide _).
  - intros e He. unfold entry_key. simpl. by apply lower_isascii.
  - rewrite shown_entries_eq. unfold sorted, entry_key. simpl.
    repeat (progress (simpl; rewrite ?lower_isascii by done)). done.
Qed.

(** ** Exclusion in the aggregator *)

Lemma visible_is_dir ignores root parts e :
  visible ignores root parts e → Path.is_dir root = Some true.
Proof. destruct 1; by destruct d. Qed.

Lemma visible_take ignores root parts e i :
  visible ignores root parts e → (1 ≤ i ≤ length parts)%nat →
  ∃ d, visible ignores root (take i parts) d
       ∧ (i = length parts → d = e)
       ∧ ((i < length parts)%nat → Path.is_dir d = Some true).
Proof.
  intros Hvis. revert i.
  induction Hvis as [d es e Hd He Hn|d es c parts e Hd Hc Hn Hvis IH];
    intros i Hi; simpl in Hi.
  - assert (i = 1%nat) as -> by lia. exists e. simpl.
    split_and!; [by eapply visible_entry|done|lia].
  - destruct i as [|i]; [lia|]. destruct i as [|i].
    + exists c. simpl. rewrite take_0. split_and!.
      * by eapply visible_entry.
      * intros Hlen. destruct parts; [by inversion Hvis|simpl in Hlen; lia].
      * intros _. by eapply visible_is_dir.
    + destruct (IH (S i) ltac:(lia)) as (d' & Hd' & Heq & Hdir).
      exists d'. split_and!.
      * by eapply visible_below.
      * intros Hlen. apply Heq. simpl in Hlen. lia.
      * intros Hlen. apply Hdir. simpl in Hlen. lia.
Qed.

Lemma keys_add k k' v d :
  k ∈ PyDict.keys (PyDict.add k' v d) → k = k' ∨ k ∈ PyDict.keys d.
Proof.
  unfold PyDict.keys. induction d as [|[k0 v0] d IH]; simpl.
  - intros ->%list_elem_of_singleton. by left.
  - case_decide; simpl; [by right|].
    rewrite !elem_of_cons. intros [?|?]; [by right; left|].
    destruct IH as [?|?]; [done|by left|by right; right].
Qed.

Lemma keys_add_to_ancestors k parts sz d :
  k ∈ PyDict.keys (add_to_ancestors parts sz d) →
  k ∈ ancestor_keys parts ∨ k ∈ PyDict.keys d.
Proof.
  rewrite add_to_ancestors_keys. generalize (ancestor_keys parts). intros ks.
  revert d. induction ks as [|k0 ks IH]; intros d; simpl; [by right|].
  intros [Hk|[->|Hk]%keys_add]%IH.
  - left. by right.
  - left. by left.
  - by right.
Qed.

Lemma stat_child_Some p es f sz :
  Path.iterdir p = Some es → Path.stat_child p f = Some sz →
  ∃ e, e ∈ es ∧ Path.name e = f ∧ Path.stat_size e = Some sz.
Proof.
  unfold Path.stat_child. intros -> Hstat. simpl in Hstat.
  destruct (Path.child es f) as [e|] eqn:He; [|done].
  apply child_Some in He as [? ?]. by exists e.
Qed.

(** The records and the folder keys of the aggregator all belong to
    visible entries. *)
Lemma gather_loop_visible_only root ignores :
  let st := gather_loop root ignores in
  Forall (records_visible ignores root) (file_sizes st)
  ∧ Forall (names_visible_dir ignores root) (PyDict.keys (folder_sizes st)).
Proof.
  unfold gather_loop.
  apply (os_walk_invariant (walk_body ignores) (reaches ignores root)
           (λ st, Forall (records_visible ignores root) (file_sizes st)
                  ∧ Forall (names_visible_dir ignores root)
                           (PyDict.keys (folder_sizes st)))).
  - intros top p es ds fs s Hes Hreach. simpl.
    revert s. induction fs as [|f fs IH]; intros s Hs; [done|].
    simpl. apply IH. unfold visit_file.
    case_decide as Hf; [done|].
    destruct (Path.stat_child p f) as [sz|] eqn:Hstat; [|done].
    destruct (stat_child_Some _ _ _ _ Hes Hstat) as (e & He & <- & Hsz).
    pose proof (reaches_child _ _ _ _ _ _ Hreach Hes He Hf) as Hvis.
    destruct Hs as [Hfiles Hfolders]. simpl. split.
    + apply Forall_app. split; [done|]. apply Forall_singleton.
      by exists (top ++ [Path.name e]), e.
    + apply Forall_forall. intros k [Hk|Hk]%keys_add_to_ancestors.
      * unfold ancestor_keys in Hk.
        apply list_elem_of_fmap in Hk as (i & -> & [? ?]%elem_of_seq).
        destruct Hreach as [[-> ->]|Hp]; [simpl in *; lia|].
        destruct (visible_take _ _ _ _ i Hp ltac:(lia)) as (d & Hd & Heq & Hdir).
        exists (take i top), d. split_and!; [done| |done].
        destruct (decide (i = length top)) as [Hi|Hi].
        -- rewrite (Heq Hi). by destruct p.
        -- apply Hdir. lia.
      * rewrite Forall_forall in Hfolders. by apply Hfolders.
  - intros top p es s d e Hes Hreach Hd He Hname. right.
    simpl in Hd. apply list_elem_of_filter in Hd as [Hd _]. subst d.
    by eapply reaches_child.
  - by left.
  - by split.
Qed.

(** ** Excluded entries are invisible: pruning the tree changes nothing *)

Lemma prune_dir ignores n es :
  prune ignores (Dir n (Some es)) = Dir n (Some (omap (prune_entry ignores) es)).
Proof. done. Qed.

Lemma prune_name ignores e : Path.name (prune ignores e) = Path.name e.
Proof. by destruct e as [|? [|]]. Qed.

Lemma prune_is_dir ignores e : Path.is_dir (prune ignores e) = Path.is_dir e.
Proof. by destruct e as [|? [|]]. Qed.

Lemma prune_is_file ignores e : Path.is_file (prune ignores e) = Path.is_file e.
Proof. by destruct e as [|? [|]]. Qed.

Lemma prune_stat_size ignores e :
  Path.stat_size (prune ignores e) = Path.stat_size e.
Proof. by destruct e as [|? [|]]. Qed.

Lemma prune_scandir ignores e :
  DirEntry.is_dir (prune ignores e) = DirEntry.is_dir e.
Proof. by destruct e as [|? [|]]. Qed.

Lemma prune_entry_is_dir ignores e :
  entry_is_dir (prune ignores e) = entry_is_dir e.
Proof. unfold entry_is_dir. by rewrite prune_is_dir. Qed.

Lemma omap_prune_entry ignores (es : list node) :
  omap (prune_entry ignores) es
  = prune ignores <$> filter (λ e, Path.name e ∉ ignores) es.
Proof.
  induction es as [|e es IH]; [done|].
  rewrite filter_cons. cbn [omap list_omap]. unfold prune_entry at 1.
  destruct (decide (Path.name e ∈ ignores)).
  - rewrite decide_False by tauto. apply IH.
  - rewrite decide_True by done. rewrite fmap_cons. f_equal. apply IH.
Qed.

Lemma fmap_prune_dirnames ignores (l : list node) :
  dirnames (prune ignores <$> l) = dirnames l.
Proof.
  unfold dirnames. induction l as [|e l IH]; [done|].
  rewrite fmap_cons, !filter_cons, prune_scandir.
  case_decide; rewrite ?fmap_cons, ?prune_name, IH; done.
Qed.

Lemma fmap_prune_filenames ignores (l : list node) :
  filenames (prune ignores <$> l) = filenames l.
Proof.
  unfold filenames. induction l as [|e l IH]; [done|].
  rewrite fmap_cons, !filter_cons, prune_scandir.
  case_decide; rewrite ?fmap_cons, ?prune_name, IH; done.
Qed.

Lemma filter_dirnames (ignores : gset string) (l : list node) :
  dirnames (filter (λ e, Path.name e ∉ ignores) l)
  = filter (λ d, d ∉ ignores) (dirnames l).
Proof.
  unfold dirnames. induction l as [|e l IH]; [done|].
  rewrite !(filter_cons _ e).
  repeat (case_decide; rewrite ?fmap_cons, ?filter_cons); try done;
    by rewrite IH.
Qed.

Lemma filter_filenames (ignores : gset string) (l : list node) :
  filenames (filter (λ e, Path.name e ∉ ignores) l)
  = filter (λ d, d ∉ ignores) (filenames l).
Proof.
  unfold filenames. induction l as [|e l IH]; [done|].
  rewrite !(filter_cons _ e).
  repeat (case_decide; rewrite ?fmap_cons, ?filter_cons); try done;
    by rewrite IH.
Qed.

Lemma prune_dirnames ignores (es : list node) :
  dirnames (omap (prune_entry ignores) es)
  = filter (λ d, d ∉ ignores) (dirnames es).
Proof. by rewrite omap_prune_entry, fmap_prune_dirnames, filter_dirnames. Qed.

Lemma prune_filenames ignores (es : list node) :
  filenames (omap (prune_entry ignores) es)
  = filter (λ d, d ∉ ignores) (filenames es).
Proof. by rewrite omap_prune_entry, fmap_prune_filenames, filter_filenames. Qed.

Lemma prune_child ignores (es : list node) f :
  f ∉ ignores →
  Path.child (omap (prune_entry ignores) es) f = prune ignores <$> Path.child es f.
Proof.
  intros Hf. induction es as [|e es IH]; [done|].
  cbn [omap list_omap]. unfold prune_entry at 1. simpl.
  destruct (decide (Path.name e ∈ ignores)) as [Hin|Hin].
  - rewrite decide_False by (by intros <-). apply IH.
  - simpl. rewrite prune_name. by case_decide.
Qed.

Lemma filter_not_in_empty (ignores : gset string) (l : list string) :
  ignores = ∅ → filter (λ d, d ∉ ignores) l = l.
Proof.
  intros ->. induction l as [|x l IH]; [done|].
  rewrite filter_cons, decide_True by set_solver. by rewrite IH.
Qed.

Lemma prune_visit_files ignores top n es fs st :
  foldl (visit_file ∅ top (Dir n (Some (omap (prune_entry ignores) es)))) st
        (filter (λ d, d ∉ ignores) fs)
  = foldl (visit_file ignores top (Dir n (Some es))) st fs.
Proof.
  revert st. induction fs as [|f fs IH]; intros st; [done|].
  rewrite filter_cons. destruct (decide (f ∈ ignores)) as [Hf|Hf].
  - rewrite decide_False by tauto. simpl. rewrite IH. f_equal.
    unfold visit_file. by rewrite decide_True.
  - rewrite decide_True by done. simpl. rewrite IH. f_equal.
    unfold visit_file. rewrite decide_False by set_solver.
    rewrite (decide_False (P:=f ∈ ignores)) by done.
    unfold Path.stat_child. simpl. rewrite prune_child by done.
    destruct (Path.child es f); simpl; [|done]. by rewrite prune_stat_size.
Qed.

Lemma prune_os_walk ignores p :
  ∀ top st,
    os_walk (walk_body ∅) top (prune ignores p) st
    = os_walk (walk_body ignores) top p st.
Proof.
  induction p as [| |n es IH] using node_induction; intros top st; [done..|].
  rewrite prune_dir, !os_walk_dir. cbn [walk_body fst snd].
  rewrite prune_dirnames, prune_filenames, (filter_not_in_empty ∅) by done.
  rewrite prune_visit_files.
  generalize (foldl (visit_file ignores top (Dir n (Some es))) st (filenames es)).
  generalize (dirnames es). intros ds. clear st.
  induction ds as [|d ds IHds]; intros st; [done|].
  rewrite filter_cons. destruct (decide (d ∉ ignores)) as [Hd|Hd]; [|done].
  simpl. rewrite IHds. f_equal. unfold descend.
  rewrite prune_child by done.
  destruct (Path.child es d) as [e|] eqn:He; [|done]. simpl.
  apply child_Some in He as [He _].
  rewrite Forall_forall in IH. by apply IH.
Qed.

(** The aggregator sees the tree as if the excluded entries were not
    there. *)
Lemma prune_gather_loop root ignores :
  gather_loop (prune ignores root) ∅ = gather_loop root ignores.
Proof. apply prune_os_walk. Qed.

Lemma imap_fmap_bind {A B C} (g : nat → nat) (f : A → B)
    (h1 : nat * B → list C) (h2 : nat * A → list C) (l : list A) :
  (∀ i x, x ∈ l → h1 (g i, f x) = h2 (g i, x)) →
  imap (λ i x, (g i, x)) (f <$> l) ≫= h1 = imap (λ i x, (g i, x)) l ≫= h2.
Proof.
  revert g. induction l as [|x l IH]; intros g Hh; [done|].
  rewrite fmap_cons, !imap_cons. cbn [mbind list_bind].
  rewrite Hh by left. f_equal.
  apply (IH (g ∘ S)). intros i y Hy. apply Hh. by right.
Qed.

Lemma enumerate_fmap_bind {A B C} (f : A → B) (h1 : nat * B → list C)
    (h2 : nat * A → list C) (l : list A) :
  (∀ i x, x ∈ l → h1 (i, f x) = h2 (i, x)) →
  enumerate (f <$> l) ≫= h1 = enumerate l ≫= h2.
Proof. apply (imap_fmap_bind id). Qed.

(** ** Trees that the renderer cannot tell apart *)

Section same_keys.
Variable f : node → node.
Hypothesis f_name : ∀ e, Path.name (f e) = Path.name e.
Hypothesis f_is_file : ∀ e, Path.is_file (f e) = Path.is_file e.

Lemma same_entry_key e : entry_key (f e) = entry_key e.
Proof. unfold entry_key. by rewrite f_is_file, f_name. Qed.

Lemma same_keys_readable (ps : list node) :
  keys_readable (f <$> ps) = keys_readable ps.
Proof.
  unfold keys_readable. induction ps as [|e ps IH]; [done|].
  rewrite fmap_cons. simpl. by rewrite f_is_file, IH.
Qed.

(** Replacing each entry of a listing by one of the same name and the
    same [is_file] replaces the shown entries likewise. *)
Lemma same_shown_entries ignores path path' :
  Path.iterdir path' = (λ es : list node, f <$> es) <$> Path.iterdir path →
  shown_entries ignores path' = f <$> shown_entries ignores path.
Proof.
  intros Hps. rewrite !shown_entries_eq, Hps.
  destruct (Path.iterdir path) as [ps|]; [|done].
  cbn [fmap option_fmap option_map]. rewrite same_keys_readable.
  destruct (keys_readable ps); [|done].
  rewrite (list_fmap_alt _ ps).
  rewrite <- (sorted_omap entry_key tuple_leb tuple_leb_total tuple_leb_trans
                entry_key)
    by (intros a b [= <-]; apply same_entry_key).
  rewrite <- list_fmap_alt.
  generalize (sorted entry_key tuple_leb ps). intros l.
  induction l as [|e l IH]; [done|].
  rewrite fmap_cons, !filter_cons, f_name.
  case_decide; rewrite ?fmap_cons, IH; done.
Qed.

End same_keys.

Lemma prune_entry_key ignores e : entry_key (prune ignores e) = entry_key e.
Proof. unfold entry_key. by rewrite prune_is_file, prune_name. Qed.

Lemma prune_iterdir ignores p :
  Path.iterdir (prune ignores p)
  = (λ es : list node, omap (prune_entry ignores) es) <$> Path.iterdir p.
Proof. by destruct p as [|? [|]]. Qed.

Lemma excluded_keys_readable_dir ignores n es :
  excluded_keys_readable ignores (Dir n (Some es)) = true →
  Forall (λ e, if decide (Path.name e ∈ ignores)
               then is_Some (Path.is_file e)
               else excluded_keys_readable ignores e = true) es.
Proof.
  simpl. rewrite forallb_forall. intros Hall.
  apply Forall_forall. intros e He%list_elem_of_In. specialize (Hall e He).
  case_decide; [by apply bool_decide_eq_true in Hall|done].
Qed.

(** When [is_file] raises on no excluded entry, the keys of a listing can
    be read just when those of the entries that are not excluded can. *)
Lemma prune_keys_readable ignores (ps : list node) :
  Forall (λ e, Path.name e ∈ ignores → is_Some (Path.is_file e)) ps →
  keys_readable (omap (prune_entry ignores) ps) = keys_readable ps.
Proof.
  unfold keys_readable. induction 1 as [|e ps He Hps IH]; [done|].
  cbn [omap list_omap]. unfold prune_entry at 1.
  destruct (decide (Path.name e ∈ ignores)) as [Hin|Hin]; simpl.
  - by rewrite (bool_decide_eq_true_2 _ (He Hin)).
  - by rewrite prune_is_file, IH.
Qed.

Lemma prune_shown_entries ignores path ps :
  Path.iterdir path = Some ps →
  Forall (λ e, Path.name e ∈ ignores → is_Some (Path.is_file e)) ps →
  shown_entries ∅ (prune ignores path)
  = prune ignores <$> shown_entries ignores path.
Proof.
  intros Hps Hex. rewrite !shown_entries_eq, prune_iterdir, Hps.
  cbn [fmap option_fmap option_map]. rewrite prune_keys_readable by done.
  destruct (keys_readable ps); [|done].
  rewrite <- (sorted_omap entry_key tuple_leb tuple_leb_total tuple_leb_trans
                entry_key).
  - rewrite omap_prune_entry.
    generalize (prune ignores <$>
                filter (λ e, Path.name e ∉ ignores) (sorted entry_key tuple_leb ps)).
    intros l. induction l as [|x l IH]; [done|].
    rewrite filter_cons, decide_True by set_solver. by rewrite IH.
  - intros a b. unfold prune_entry. case_decide; [done|].
    intros [= <-]. apply prune_entry_key.
Qed.

Lemma prune_entry_line ignores prefix is_last e :
  entry_line prefix is_last (prune ignores e) = entry_line prefix is_last e.
Proof. unfold entry_line. by rewrite prune_name, prune_entry_is_dir. Qed.

(** When [is_file] raises on no excluded entry, the renderer sees the
    tree as if the excluded entries were not there. *)
Lemma prune_helper ignores depth current_depth :
  ∀ path prefix lines,
    excluded_keys_readable ignores path = true →
    helper depth ∅ (prune ignores path) prefix current_depth lines
    = helper depth ignores path prefix current_depth lines.
Proof.
  induction current_depth as [current_depth IH] using (depth_induction depth).
  intros path prefix lines Hex.
  rewrite (helper_lines _ ∅), (helper_lines _ ignores). f_equal.
  case_decide; [done|].
  destruct path as [f st|n [ps|]]; [done| |done].
  apply excluded_keys_readable_dir in Hex.
  cbv zeta. rewrite (prune_shown_entries ignores _ ps); [|done|].
  2:{ eapply Forall_impl; [done|]. intros e He Hin. simpl in He.
      by rewrite decide_True in He. }
  rewrite length_fmap.
  apply enumerate_fmap_bind. intros i e He. unfold entry_lines. cbn [fst snd].
  rewrite prune_entry_line, prune_entry_is_dir.
  destruct (entry_is_dir e); [|done]. f_equal. apply IH; [lia|].
  apply elem_of_shown_entries in He as (ps' & [= <-] & _ & He & Hn).
  rewrite Forall_forall in Hex. specialize (Hex e He). simpl in Hex.
  by rewrite decide_False in Hex.
Qed.

Lemma prune_scan_tree root depth ignores :
  excluded_keys_readable ignores root = true →
  scan_tree (prune ignores root) depth ∅ = scan_tree root depth ignores.
Proof. intros Hex. unfold scan_tree. by rewrite prune_helper, prune_name. Qed.

(** ** What lies below an excluded name *)

Lemma stub_name e : Path.name (stub e) = Path.name e.
Proof. by destruct e. Qed.

Lemma stub_is_file e : Path.is_file (stub e) = Path.is_file e.
Proof. by destruct e. Qed.

Lemma hollow_name ignores e : Path.name (hollow ignores e) = Path.name e.
Proof. by destruct e as [|? [|]]. Qed.

Lemma hollow_is_file ignores e :
  Path.is_file (hollow ignores e) = Path.is_file e.
Proof. by destruct e as [|? [|]]. Qed.

Lemma hollow_is_dir ignores e : Path.is_dir (hollow ignores e) = Path.is_dir e.
Proof. by destruct e as [|? [|]]. Qed.

Lemma hollow_entry_name ignores e :
  Path.name (hollow_entry ignores e) = Path.name e.
Proof.
  unfold hollow_entry. case_decide; [apply stub_name|apply hollow_name].
Qed.

Lemma hollow_entry_is_file ignores e :
  Path.is_file (hollow_entry ignores e) = Path.is_file e.
Proof.
  unfold hollow_entry. case_decide; [apply stub_is_file|apply hollow_is_file].
Qed.

Lemma hollow_iterdir ignores p :
  Path.iterdir (hollow ignores p)
  = (λ es : list node, hollow_entry ignores <$> es) <$> Path.iterdir p.
Proof. by destruct p as [|? [|]]. Qed.

(** The renderer never looks below an excluded name. *)
Lemma hollow_helper ignores depth current_depth :
  ∀ path prefix lines,
    helper depth ignores (hollow ignores path) prefix current_depth lines
    = helper depth ignores path prefix current_depth lines.
Proof.
  induction current_depth as [current_depth IH] using (depth_induction depth).
  intros path prefix lines.
  rewrite (helper_lines _ _ (hollow ignores path)), (helper_lines _ _ path).
  f_equal. case_decide; [done|]. cbv zeta.
  rewrite (same_shown_entries (hollow_entry ignores)
             (hollow_entry_name ignores) (hollow_entry_is_file ignores)
             ignores path) by apply hollow_iterdir.
  rewrite length_fmap.
  apply enumerate_fmap_bind. intros i e He. unfold entry_lines. cbn [fst snd].
  apply elem_of_shown_entries in He as (ps & _ & _ & _ & Hn).
  unfold hollow_entry. rewrite decide_False by done.
  unfold entry_line, entry_is_dir. rewrite hollow_name, hollow_is_dir.
  case_bool_decide; [|done]. f_equal. apply IH. lia.
Qed.

Lemma hollow_scan_tree root depth ignores :
  scan_tree (hollow ignores root) depth ignores = scan_tree root depth ignores.
Proof. unfold scan_tree. by rewrite hollow_helper, hollow_name. Qed.

Lemma prune_stub_entry ignores e :
  Path.name e ∈ ignores → prune_entry ignores (stub e) = None.
Proof. intros He. unfold prune_entry. by rewrite stub_name, decide_True. Qed.

Lemma prune_hollow ignores p : prune ignores (hollow ignores p) = prune ignores p.
Proof.
  induction p as [| |n es IH] using node_induction; [done..|].
  simpl. do 2 f_equal.
  induction es as [|e es IHes]; [done|].
  apply Forall_cons in IH as [IHe IH]. specialize (IHes IH).
  rewrite fmap_cons. cbn [omap list_omap].
  destruct (decide (Path.name e ∈ ignores)) as [Hin|Hin].
  - rewrite stub_name, decide_True by done. apply IHes.
  - rewrite hollow_name, decide_False by done. by rewrite IHe, IHes.
Qed.

(** The aggregator never looks below an excluded name. *)
Lemma hollow_gather_loop root ignores :
  gather_loop (hollow ignores root) ignores = gather_loop root ignores.
Proof.
  by rewrite <- (prune_gather_loop (hollow ignores root)), prune_hollow,
    prune_gather_loop.
Qed.

(** C2. No excluded entry, and nothing below an excluded directory, shows
    in the output of either traversal: every file record and every folder
    key of the aggregator and every line of the renderer after the first
    belongs to a visible entry, whose path has no excluded part.  The
    aggregator returns what it returns, without any exclusion, on the tree
    from which the excluded entries are removed at every depth.  Neither
    traversal looks below an excluded name: two trees that differ only
    there give the same statistics and the same lines.  The renderer
    sorts a listing before it filters it, so it asks every entry, excluded
    or not, whether it is a file; when that call raises on no excluded
    entry, the renderer too returns what it returns on the tree without
    the excluded entries. *)
Theorem excluded_entries_invisible (root : node) (ignores : gset string)
    (depth : Z) :
  let st := gather_loop root ignores in
  Forall (records_visible ignores root) (file_sizes st)
  ∧ Forall (names_visible_dir ignores root) (PyDict.keys (folder_sizes st))
  ∧ Forall (renders ignores root depth) (tail (scan_tree root depth ignores))
  ∧ (∀ parts e, visible ignores root parts e → Forall (λ s, s ∉ ignores) parts)
  ∧ gather_loop (prune ignores root) ∅ = st
  ∧ gather_stats (prune ignores root) ∅ = gather_stats root ignores
  ∧ (∀ root', prune ignores root' = prune ignores root →
       gather_stats root' ignores = gather_stats root ignores)
  ∧ (∀ root', hollow ignores root' = hollow ignores root →
       gather_stats root' ignores = gather_stats root ignores
       ∧ scan_tree root' depth ignores = scan_tree root depth ignores)
  ∧ (excluded_keys_readable ignores root = true →
       scan_tree (prune ignores root) depth ∅ = scan_tree root depth ignores
       ∧ ∀ root', excluded_keys_readable ignores root' = true →
                  prune ignores root' = prune ignores root →
                  scan_tree root' depth ignores = scan_tree root depth ignores).
Proof.
  intros st.
  destruct (gather_loop_visible_only root ignores) as [Hfiles Hfolders].
  destruct (scan_tree_depth_bound_aux root depth ignores) as (rest & Heq & Hrest).
  split_and!; [done|done| | | | | | |].
  - by rewrite Heq.
  - intros parts e. apply visible_not_ignored.
  - apply prune_gather_loop.
  - unfold gather_stats. by rewrite prune_gather_loop.
  - intros root' Hroot'. unfold gather_stats.
    by rewrite <- (prune_gather_loop root'), Hroot', prune_gather_loop.
  - intros root' Hroot'. split.
    + unfold gather_stats.
      by rewrite <- (hollow_gather_loop root'), Hroot', hollow_gather_loop.
    + by rewrite <- (hollow_scan_tree root'), Hroot', hollow_scan_tree.
  - intros Hex. split; [by apply prune_scan_tree|].
    intros root' Hex' Hroot'.
    by rewrite <- (prune_scan_tree root'), Hroot', prune_scan_tree.
Qed.

(** ** Unreadable items *)
























End interpreter.

(** ** The properties on examples *)

(** The examples run with an interpreter whose [str.lower] leaves every
    character outside ASCII as it is; their names are ASCII. *)
#[local] Existing Instance ascii_only.

Lemma folder_size_is_recursive_sum_witness :
  (800 = folder_total ∅ scenario "src"
   ∧ 800 = folder_total_of_records (file_sizes (gather_loop scenario ∅)) "src"
   ∧ (∃ rel_dir f sz,
        (rel_dir, f, sz) ∈ visible_files ∅ [] scenario
        ∧ is_ancestor "src" rel_dir)
   ∧ "src" ≠ "" ∧ "src" ≠ ".")
  ∧ PyDict.get "src" (folder_sizes (gather_loop scenario ∅)) = Some 800
  ∧ PyDict.get "src/lib" (folder_sizes (gather_loop scenario ∅)) = Some 300.
Proof.
  destruct (folder_size_is_recursive_sum scenario ∅ eq_refl) as [Hkeys Hfiles].
  assert ((["src"; "lib"], "util.go", 300) ∈ visible_files ∅ [] scenario)
    as Hutil by (apply (bool_decide_unpack _); by vm_compute).
  split; [|split].
  - apply (Hkeys "src" 800). reflexivity.
  - apply (Hfiles ["src"; "lib"] "util.go" 300 ["src"] Hutil); [done|].
    by exists ["lib"].
  - by apply (Hfiles ["src"; "lib"] "util.go" 300 ["src"; "lib"] Hutil).
Defined.



Lemma children_sorted_by_key_witness :
  let path := Dir "r" (Some mixed_listing) in
  let entries := shown_entries {["build"]} path in
  helper 1 {["build"]} path "" 1 ["r/"]
  = ["r/"] ++ (enumerate entries ≫= entry_lines 1 {["build"]} "" 1 (length entries))
  ∧ entries ≡ₚ filter (λ e, Path.name e ∉ ({["build"]} : gset string))
                 mixed_listing
  ∧ StronglySorted (key_le entry_key tuple_leb) entries
  ∧ (∀ i j a b, entries !! i = Some a → entries !! j = Some b →
       Path.is_file a = Some false → Path.is_file b = Some true → (i < j)%nat)
  ∧ (∀ i j a b, (i < j)%nat → entries !! i = Some a → entries !! j = Some b →
       Path.is_file a = Path.is_file b →
       String.leb (lower (Path.name a)) (lower (Path.name b)) = true)
  ∧ helper 1 ∅ (Dir "r" (Some [Dir "src" None; File "x" (Refused false)]))
           "" 1 ["r/"] = ["r/"].
Proof.
  intros path entries.
  destruct (children_sorted_by_key 1 {["build"]} path "" 1 ["r/"]
              mixed_listing ltac:(lia) eq_refl)
    as (Hlines & _ & Hsorted & _).
  destruct (Hsorted eq_refl) as (Hperm & Hs & Hfirst & Hnames & _).
  destruct (children_sorted_by_key 1 ∅
              (Dir "r" (Some [Dir "src" None; File "x" (Refused false)]))
              "" 1 ["r/"] _ ltac:(lia) eq_refl)
    as (_ & Hraises & _).
  split_and!; [done..|]. by apply Hraises.
Defined.

(** A named pipe and a dangling link are no directories, and the renderer
    lists them before the directory [zdir]; when [stat] refuses an entry,
    no child of the directory is listed. *)
Lemma entries_before_directories :
  scan_tree (Dir "r" (Some [Dir "zdir" (Some []); File "a.pipe" (Other 0);
                            File "b.link" Missing; File "c.txt" (Regular 1)]))
            1 ∅
  = ["r/"; "├── a.pipe"; "├── b.link"; "├── zdir/"; "└── c.txt"]
  ∧ scan_tree (Dir "r" (Some [Dir "src" (Some []); File "main.py" (Regular 9);
                              File "x" (Refused false)])) 1 ∅
    = ["r/"].
Proof. by vm_compute. Qed.

Example children_sorted_example :
  scan_tree (Dir "r" (Some mixed_listing)) 1 {["build"]}
  = ["r/"; "├── Docs/"; "├── src/"; "├── A.md"; "└── b.txt"]
  ∧ scan_tree (Dir "r" (Some [File "B" (Regular 0); File "a" (Regular 0)])) 1 ∅
    = ["r/"; "├── a"; "└── B"].
Proof. by vm_compute. Qed.

Lemma excluded_entries_invisible_witness :
  let other :=
    Dir "repo"
      (Some [File "README.md" (Regular 100);
             Dir "src" (Some [Dir "lib" (Some [File "big.bin" (Regular 7000)]);
                              File "main.go" (Regular 500)])]) in
  gather_stats other {["lib"]} = gather_stats scenario {["lib"]}
  ∧ scan_tree other 3 {["lib"]} = scan_tree scenario 3 {["lib"]}
  ∧ scan_tree (prune {["lib"]} scenario) 3 ∅ = scan_tree scenario 3 {["lib"]}.
Proof.
  intros other.
  destruct (excluded_entries_invisible scenario {["lib"]} 3)
    as (_ & _ & _ & _ & _ & _ & _ & Hhollow & Hprune).
  destruct (Hhollow other eq_refl) as [Hstats Hlines].
  destruct (Hprune eq_refl) as [Hpruned _].
  by split_and!.
Defined.

(** The condition on the excluded entries is needed: an excluded entry
    that [stat] refuses is not listed, and hides the other entries of its
    directory from the renderer, not from the aggregator. *)
Example excluded_entry_refused :
  let root := Dir "r" (Some [File ".git" (Refused true);
                             File "a.txt" (Regular 1)]) in
  excluded_keys_readable {[".git"]} root = false
  ∧ scan_tree root 1 {[".git"]} = ["r/"]
  ∧ scan_tree (prune {[".git"]} root) 1 ∅ = ["r/"; "└── a.txt"]
  ∧ file_sizes (gather_loop root {[".git"]}) = [("a.txt", 1)].
Proof. by vm_compute. Qed.


Example partly_unreadable_stats :
  gather_loop partly_unreadable ∅
  = {| lang_counts := [("Go", 1)]; total_files := 1; total_bytes := 500;
       file_sizes := [("src/main.go", 500)];
       folder_sizes := [("src", 500)] |}
  ∧ scan_tree partly_unreadable 3 ∅
    = ["repo/"; "├── gone.txt"; "├── locked/"; "└── src/";
       "    ├── dangling"; "    └── main.go"].
Proof. by vm_compute. Qed.

(** ** Binary64 arithmetic *)

(** The number of binary digits of a positive number. *)
Lemma digits2_pos_log2 (p : positive) :
  Z.pos (digits2_pos p) = Z.log2 (Z.pos p) + 1.
Proof.
  assert (∀ q, digits2_pos q = Pos.size q) as Hsize.
  { intros q. induction q as [q IH|q IH|]; simpl; by rewrite ?IH. }
  destruct p as [p|p|]; simpl; rewrite ?Hsize; lia.
Qed.

Lemma digits2_pos_succ (p : positive) :
  digits2_pos (p + 1) = digits2_pos p
  ∨ digits2_pos (p + 1) = (digits2_pos p + 1)%positive.
Proof.
  pose proof (digits2_pos_log2 p) as Hp.
  pose proof (digits2_pos_log2 (p + 1)) as Hp1.
  pose proof (Z.log2_succ_le (Z.pos p)) as Hle.
  pose proof (Z.log2_le_mono (Z.pos p) (Z.succ (Z.pos p)) ltac:(lia)) as Hmono.
  replace (Z.succ (Z.pos p)) with (Z.pos (p + 1)) in * by lia.
  destruct (decide (Z.log2 (Z.pos (p + 1)) = Z.log2 (Z.pos p))); [left|right]; lia.
Qed.

Lemma digits2_pos_shl (p k : positive) :
  digits2_pos (Pos.iter xO p k) = (digits2_pos p + k)%positive.
Proof.
  induction k as [|k IH] using Pos.peano_ind; simpl.
  - lia.
  - rewrite Pos.iter_succ. simpl. rewrite IH. lia.
Qed.

(** Shifting right by one bit drops one digit. *)
Lemma shr_1_digits (q : positive) r s :
  (1 < digits2_pos q)%positive →
  ∃ q' r' s',
    shr_1 {| shr_m := Z.pos q; shr_r := r; shr_s := s |}
    = {| shr_m := Z.pos q'; shr_r := r'; shr_s := s' |}
    ∧ (digits2_pos q' + 1 = digits2_pos q)%positive.
Proof.
  destruct q as [q|q|]; simpl; intros Hq; [| |lia].
  - exists q, true, (r || s). split; [done|lia].
  - exists q, false, (r || s). split; [done|lia].
Qed.

Lemma iter_pos_nat {A} (f : A → A) (p : positive) (x : A) :
  SpecFloat.iter_pos f p x = Nat.iter (Pos.to_nat p) f x.
Proof.
  revert x. induction p as [p IH|p IH|]; intros x.
  - cbn [SpecFloat.iter_pos]. rewrite !IH.
    replace (Pos.to_nat p~1) with (Pos.to_nat p + S (Pos.to_nat p))%nat by lia.
    rewrite Nat.iter_add. f_equal. by rewrite Nat.iter_succ_r.
  - cbn [SpecFloat.iter_pos]. rewrite !IH.
    replace (Pos.to_nat p~0) with (Pos.to_nat p + Pos.to_nat p)%nat by lia.
    by rewrite Nat.iter_add.
  - done.
Qed.

Lemma shr_iter_digits (k : nat) (q : positive) r s :
  (Z.of_nat k < Z.pos (digits2_pos q)) →
  ∃ q' r' s',
    Nat.iter k shr_1 {| shr_m := Z.pos q; shr_r := r; shr_s := s |}
    = {| shr_m := Z.pos q'; shr_r := r'; shr_s := s' |}
    ∧ Z.pos (digits2_pos q') + Z.of_nat k = Z.pos (digits2_pos q).
Proof.
  induction k as [|k IH]; intros Hk.
  - exists q, r, s. split; [done|lia].
  - destruct IH as (q1 & r1 & s1 & Heq & Hd); [lia|].
    simpl. rewrite Heq.
    destruct (shr_1_digits q1 r1 s1) as (q2 & r2 & s2 & Heq2 & Hd2); [lia|].
    exists q2, r2, s2. split; [done|lia].
Qed.

(** Rounding to the format: a number of at least 53 digits in the normal
    range comes out with 53 digits. *)
Lemma shr_fexp_normal (q : positive) (E : Z) (l : location) :
  53 ≤ Z.pos (digits2_pos q) → -1074 ≤ Z.pos (digits2_pos q) + E - 53 →
  ∃ q' r' s',
    shr_fexp 53 1024 (Z.pos q) E l
    = ({| shr_m := Z.pos q'; shr_r := r'; shr_s := s' |},
       E + (Z.pos (digits2_pos q) - 53))
    ∧ digits2_pos q' = 53%positive.
Proof.
  intros Hd Hnormal. unfold shr_fexp, fexp, emin. cbn [Zdigits2].
  rewrite Z.max_l by lia.
  replace (Z.pos (digits2_pos q) + E - 53 - E)
    with (Z.pos (digits2_pos q) - 53) by lia.
  assert (∃ r s, shr_record_of_loc (Z.pos q) l
                 = {| shr_m := Z.pos q; shr_r := r; shr_s := s |})
    as (r & s & ->) by (destruct l as [|[]]; simpl; eauto).
  destruct (Z.pos (digits2_pos q) - 53) as [|k|k] eqn:Hk; [|
    |lia].
  - exists q, r, s. unfold shr. split; [f_equal; lia|lia].
  - unfold shr. rewrite iter_pos_nat.
    destruct (shr_iter_digits (Pos.to_nat k) q r s) as (q' & r' & s' & -> & Hq');
      [lia|].
    exists q', r', s'. split; [done|lia].
Qed.

Lemma round_nearest_even_pos (q : positive) (l : location) :
  round_nearest_even (Z.pos q) l = Z.pos q
  ∨ round_nearest_even (Z.pos q) l = Z.pos (q + 1).
Proof.
  unfold round_nearest_even.
  destruct l as [|[]]; [by left| |by left|by right].
  destruct (Z.even (Z.pos q)); [by left|by right].
Qed.

(** What rounding a mantissa of at least 53 digits to binary64 gives. *)
Lemma binary_round_aux_normal (s : bool) (q : positive) (E : Z) :
  53 ≤ Z.pos (digits2_pos q) → -1074 ≤ Z.pos (digits2_pos q) + E - 53 →
  (binary_round_aux 53 1024 s (Z.pos q) E loc_Exact = S754_infinity s
   ∧ 971 ≤ E + (Z.pos (digits2_pos q) - 53))
  ∨ ∃ m e,
      binary_round_aux 53 1024 s (Z.pos q) E loc_Exact = S754_finite s m e
      ∧ digits2_pos m = 53%positive
      ∧ E + (Z.pos (digits2_pos q) - 53) ≤ e ≤ 971.
Proof.
  intros Hd Hnormal. unfold binary_round_aux.
  destruct (shr_fexp_normal q E loc_Exact Hd Hnormal)
    as (q1 & r1 & s1 & -> & Hq1).
  cbn [shr_m].
  set (l1 := loc_of_shr_record _).
  destruct (round_nearest_even_pos q1 l1) as [-> | ->].
  - destruct (shr_fexp_normal q1 (E + (Z.pos (digits2_pos q) - 53)) loc_Exact)
      as (q2 & r2 & s2 & -> & Hq2); [lia..|].
    cbn [shr_m]. rewrite Hq1.
    destruct (_ <=? _) eqn:Hle;
      [right|left; apply Z.leb_gt in Hle; split; [done|lia]].
    apply Z.leb_le in Hle.
    eexists _, _. split; [done|]. split; [done|lia].
  - destruct (digits2_pos_succ q1) as [Hsucc|Hsucc];
      destruct (shr_fexp_normal (q1 + 1) (E + (Z.pos (digits2_pos q) - 53))
                  loc_Exact)
      as (q2 & r2 & s2 & -> & Hq2); try lia;
      cbn [shr_m]; rewrite Hsucc, Hq1;
      (destruct (_ <=? _) eqn:Hle;
         [right|left; apply Z.leb_gt in Hle; split; [done|lia]]);
      apply Z.leb_le in Hle;
      (eexists _, _; split; [done|]; split; [done|lia]).
Qed.

(** [float(n)] of a positive integer is a normal number, when it exists. *)
Lemma round_int_normal (p : positive) :
  (PyFloat.round_int (Z.pos p) = S754_infinity false
   ∧ 1024 ≤ Z.pos (digits2_pos p))
  ∨ ∃ m e,
      PyFloat.round_int (Z.pos p) = S754_finite false m e
      ∧ digits2_pos m = 53%positive
      ∧ -52 ≤ e ≤ 971 ∧ Z.pos (digits2_pos p) - 53 ≤ e.
Proof.
  unfold PyFloat.round_int, PyFloat.prec, PyFloat.emax, binary_normalize,
    binary_round, fexp, emin.
  rewrite Z.max_l by lia. unfold shl_align.
  destruct (Z.pos (digits2_pos p) + 0 - 53 - 0) as [|k|k] eqn:Hk.
  - destruct (binary_round_aux_normal false p 0)
      as [[-> ?]|(m & e & -> & ? & ?)]; [lia..|left; split; [done|lia]|].
    right. exists m, e. split_and!; [done..|lia|lia|lia].
  - destruct (binary_round_aux_normal false p 0)
      as [[-> ?]|(m & e & -> & ? & ?)]; [lia..|left; split; [done|lia]|].
    right. exists m, e. split_and!; [done..|lia|lia|lia].
  - pose proof (digits2_pos_shl p k) as Hshl.
    destruct (binary_round_aux_normal false (Pos.iter xO p k)
                (Z.pos (digits2_pos p) + 0 - 53))
      as [[-> ?]|(m & e & -> & ? & ?)]; [lia..|lia|].
    right. exists m, e. split_and!; [done..|lia|lia|lia].
Qed.

(** The bits that shifting to the right drops: after [k] shifts of an
    exact number the rounding bit is bit [k - 1] of the number. *)
Lemma shr_iter_value (k : nat) (q : positive) :
  Z.of_nat (S k) < Z.pos (digits2_pos q) →
  ∃ q' r' s' low,
    Nat.iter (S k) shr_1 {| shr_m := Z.pos q; shr_r := false; shr_s := false |}
    = {| shr_m := Z.pos q'; shr_r := r'; shr_s := s' |}
    ∧ Z.pos (digits2_pos q') + Z.of_nat (S k) = Z.pos (digits2_pos q)
    ∧ Z.pos q = Z.pos q' * 2 ^ Z.of_nat (S k)
                + (if r' then 2 ^ Z.of_nat k else 0) + low
    ∧ 0 ≤ low < 2 ^ Z.of_nat k.
Proof.
  induction k as [|k IH]; intros Hk.
  - destruct q as [q|q|]; [| |simpl in Hk; lia].
    + exists q, true, false, 0. simpl. split_and!; [done|lia|lia|lia|lia].
    + exists q, false, false, 0. simpl. split_and!; [done|lia|lia|lia|lia].
  - destruct IH as (q1 & r1 & s1 & low & Heq & Hd & Hval & Hlow); [lia|].
    rewrite Nat.iter_succ, Heq.
    assert (2 ^ Z.of_nat (S (S k)) = 2 * 2 ^ Z.of_nat (S k)) as Hp2
      by (rewrite <- Z.pow_succ_r by lia; f_equal; lia).
    assert (2 ^ Z.of_nat (S k) = 2 * 2 ^ Z.of_nat k) as Hp1
      by (rewrite <- Z.pow_succ_r by lia; f_equal; lia).
    destruct q1 as [q1|q1|]; [| |simpl in Hd; lia].
    + exists q1, true, (r1 || s1), ((if r1 then 2 ^ Z.of_nat k else 0) + low).
      simpl shr_1. split_and!; [done|simpl in *; lia| |destruct r1; lia|destruct r1; lia].
      rewrite Hval, Hp2, Pos2Z.inj_xI. lia.
    + exists q1, false, (r1 || s1), ((if r1 then 2 ^ Z.of_nat k else 0) + low).
      simpl shr_1. split_and!; [done|simpl in *; lia| |destruct r1; lia|destruct r1; lia].
      rewrite Hval, Hp2, Pos2Z.inj_xO. lia.
Qed.

Lemma digits2_pos_bounds (q : positive) :
  2 ^ (Z.pos (digits2_pos q) - 1) ≤ Z.pos q < 2 ^ Z.pos (digits2_pos q).
Proof.
  rewrite digits2_pos_log2.
  pose proof (Z.log2_spec (Z.pos q) ltac:(lia)) as H.
  replace (Z.log2 (Z.pos q) + 1 - 1) with (Z.log2 (Z.pos q)) by lia.
  replace (Z.log2 (Z.pos q) + 1) with (Z.succ (Z.log2 (Z.pos q))) by lia.
  done.
Qed.

(** An integer of exactly 1024 bits has a float unless it rounds up to
    2^1024. *)
Lemma round_int_1024_bits (p : positive) :
  Z.pos (digits2_pos p) = 1024 →
  PyFloat.round_int (Z.pos p) = S754_infinity false
  ↔ 2 ^ 1024 - 2 ^ 970 ≤ Z.pos p.
Proof.
  intros Hd.
  unfold PyFloat.round_int, PyFloat.prec, PyFloat.emax, binary_normalize,
    binary_round, fexp, emin.
  rewrite Hd. change (Z.max (1024 + 0 - 53) (3 - 1024 - 53)) with 971.
  unfold shl_align. change (971 - 0) with 971.
  unfold binary_round_aux, shr_fexp at 1, fexp, emin. cbn [Zdigits2].
  rewrite Hd. change (Z.max (1024 + 0 - 53) (3 - 1024 - 53) - 0) with 971.
  cbn [shr_record_of_loc shr]. rewrite iter_pos_nat.
  change (Pos.to_nat 971) with (S 970).
  destruct (shr_iter_value 970 p) as (q1 & r1 & s1 & low & -> & Hq1 & Hval & Hlow);
    [lia|].
  cbn [shr_m]. change (0 + 971) with 971.
  assert (Z.pos (digits2_pos q1) = 53) as Hq1' by lia.
  pose proof (digits2_pos_bounds q1) as Hb1. rewrite Hq1' in Hb1.
  change (Z.of_nat 970) with 970 in *. change (Z.of_nat (S 970)) with 971 in *.
  set (P := 2 ^ 970) in *.
  assert (0 < P) as HP by (apply Z.pow_pos_nonneg; lia).
  assert (2 ^ 971 = 2 * P) as HP1
    by (unfold P; rewrite <- Z.pow_succ_r by lia; done).
  assert (2 ^ 1024 = 2 ^ 54 * P) as HP2
    by (unfold P; rewrite <- Z.pow_add_r by lia; done).
  rewrite HP1 in Hval. rewrite HP2.
  change (2 ^ 54) with 18014398509481984.
  change (2 ^ (53 - 1)) with 4503599627370496 in Hb1.
  change (2 ^ 53) with 9007199254740992 in Hb1.
  set (l1 := loc_of_shr_record _).
  assert (round_nearest_even (Z.pos q1) l1 = Z.pos q1
          ∧ Z.pos p < 18014398509481984 * P - P
          ∨ round_nearest_even (Z.pos q1) l1 = Z.pos (q1 + 1) ∧ r1 = true)
    as [[-> Hlt]|[-> ->]].
  { unfold l1, loc_of_shr_record, round_nearest_even.
    destruct r1, s1; [by right| |left; split; [done|nia]..].
    destruct (Z.even (Z.pos q1)) eqn:Heven; [|by right].
    left. split; [done|].
    apply Z.even_spec in Heven as [h Hh]. nia. }
  - destruct (shr_fexp_normal q1 971 loc_Exact) as (q2 & r2 & s2 & -> & Hq2);
      [lia..|].
    cbn [shr_m]. rewrite Hq1'. change (971 + (53 - 53) <=? 1024 - 53) with true.
    split; [done|lia].
  - pose proof (digits2_pos_bounds (q1 + 1)) as Hb2.
    destruct (digits2_pos_succ q1) as [Hsucc|Hsucc]; rewrite Hsucc in Hb2.
    + destruct (shr_fexp_normal (q1 + 1) 971 loc_Exact)
        as (q2 & r2 & s2 & -> & Hq2); [lia..|].
      cbn [shr_m]. rewrite Hsucc, Hq1'.
      change (971 + (53 - 53) <=? 1024 - 53) with true.
      split; [done|]. rewrite Hq1' in Hb2.
      change (2 ^ 53) with 9007199254740992 in Hb2. nia.
    + destruct (shr_fexp_normal (q1 + 1) 971 loc_Exact)
        as (q2 & r2 & s2 & -> & Hq2); [lia..|].
      cbn [shr_m]. rewrite Hsucc.
      replace (Z.pos (digits2_pos q1 + 1)) with 54 by lia.
      change (971 + (54 - 53) <=? 1024 - 53) with false.
      split; [|done]. intros _.
      replace (Z.pos (digits2_pos q1 + 1) - 1) with 53 in Hb2 by lia.
      change (2 ^ 53) with 9007199254740992 in Hb2. nia.
Qed.

(** [float(n)] exists exactly for the integers below 2^1024 - 2^970. *)
Lemma of_int_is_Some_iff (n : Z) :
  0 ≤ n → is_Some (PyFloat.of_int n) ↔ n < 2 ^ 1024 - 2 ^ 970.
Proof.
  intros Hn. unfold PyFloat.of_int. destruct n as [|p|p]; [done| |lia].
  pose proof (digits2_pos_bounds p) as Hb.
  destruct (Z.lt_total (Z.pos (digits2_pos p)) 1024) as [Hd|[Hd|Hd]].
  - destruct (round_int_normal p) as [[_ ?]|(m & e & -> & _)]; [lia|].
    split; [intros _|intros _; unfold is_Some; eauto].
    assert (2 ^ Z.pos (digits2_pos p) ≤ 2 ^ 1023)
      by (apply Z.pow_le_mono_r; lia).
    assert (2 ^ 1023 < 2 ^ 1024 - 2 ^ 970) by done. lia.
  - pose proof (round_int_1024_bits p Hd) as Hiff.
    destruct (round_int_normal p) as [[Hr _]|(m & e & Hr & _)];
      rewrite Hr in Hiff |- *.
    + split; [by intros [? ?]|]. intros Hlt. apply proj1 in Hiff.
      specialize (Hiff eq_refl). lia.
    + split; [intros _|intros _; unfold is_Some; eauto].
      destruct (Z.lt_ge_cases (Z.pos p) (2 ^ 1024 - 2 ^ 970)) as [|Hge]; [done|].
      by apply Hiff in Hge.
  - destruct (round_int_normal p) as [[-> _]|(m & e & _ & _ & ? & ?)]; [|lia].
    split; [by intros [? ?]|]. intros Hlt.
    assert (2 ^ 1024 ≤ 2 ^ (Z.pos (digits2_pos p) - 1))
      by (apply Z.pow_le_mono_r; lia).
    assert (0 < 2 ^ 970) by done. lia.
Qed.

(** Comparison with 1024.0 and division by 1024.0 of a normal number. *)
Lemma ltb_1024_normal (m : positive) (e : Z) :
  PyFloat.ltb (S754_finite false m e) PyFloat.lit_1024 = false → -42 ≤ e.
Proof.
  unfold PyFloat.ltb, SFltb, PyFloat.lit_1024, SFcompare.
  destruct (e ?= -42) eqn:He.
  - apply Z.compare_eq in He. lia.
  - done.
  - intros _. apply Z.compare_gt_iff in He. lia.
Qed.

Lemma div_1024_normal (m : positive) (e : Z) :
  digits2_pos m = 53%positive → -42 ≤ e ≤ 971 →
  PyFloat.div (S754_finite false m e) PyFloat.lit_1024
  = S754_finite false m (e - 10).
Proof.
  intros Hm He.
  unfold PyFloat.div, PyFloat.prec, PyFloat.emax, PyFloat.lit_1024, SFdiv,
    SFdiv_core_binary.
  cbn [Zdigits2 xorb]. rewrite Hm.
  change (digits2_pos (2 ^ 52)) with 53%positive.
  unfold fexp, emin.
  replace (Z.max (53 + e - (53 + -42) - 53) (3 - 1024 - 53)) with (e - 11) by lia.
  replace (Z.min (e - 11) (e - -42)) with (e - 11) by lia.
  replace (e - -42 - (e - 11)) with 53 by lia.
  assert (Z.div_eucl (Z.shiftl (Z.pos m) 53) (Z.pos (2 ^ 52))
          = (Z.pos m~0, 0)) as ->.
  { rewrite Z.shiftl_mul_pow2 by lia.
    pose proof (Z.div_eucl_eq (Z.pos m * 2 ^ 53) (Z.pos (2 ^ 52)) ltac:(lia)) as Heq.
    pose proof (Z.mod_pos_bound (Z.pos m * 2 ^ 53) (Z.pos (2 ^ 52)) ltac:(lia)) as Hb.
    unfold Z.modulo in Hb.
    destruct (Z.div_eucl (Z.pos m * 2 ^ 53) (Z.pos (2 ^ 52))) as [q r].
    change (2 ^ 53) with (2 * Z.pos (2 ^ 52)) in Heq.
    f_equal; [|lia].
    assert (q = 2 * Z.pos m) as -> by nia. lia. }
  change (new_location (Z.pos (2 ^ 52)) 0) with loc_Exact.
  unfold binary_round_aux.
  assert (shr_fexp 53 1024 (Z.pos m~0) (e - 11) loc_Exact
          = ({| shr_m := Z.pos m; shr_r := false; shr_s := false |}, e - 10))
    as ->.
  { unfold shr_fexp, fexp, emin. cbn [Zdigits2 digits2_pos]. rewrite Hm.
    replace (Z.max (Z.pos (Pos.succ 53) + (e - 11) - 53) (3 - 1024 - 53)
             - (e - 11)) with 1 by lia.
    unfold shr. simpl. f_equal. lia. }
  cbn [shr_m loc_of_shr_record round_nearest_even].
  assert (shr_fexp 53 1024 (Z.pos m) (e - 10) loc_Exact
          = ({| shr_m := Z.pos m; shr_r := false; shr_s := false |}, e - 10))
    as ->.
  { unfold shr_fexp, fexp, emin. cbn [Zdigits2]. rewrite Hm.
    replace (Z.max (53 + (e - 10) - 53) (3 - 1024 - 53) - (e - 10))
      with 0 by lia.
    done. }
  cbn [shr_m]. by rewrite (proj2 (Z.leb_le _ _)) by lia.
Qed.

(** ** The shape of a formatted number *)

Lemma string_of_uint_digits (d : Decimal.uint) :
  all_digits (NilEmpty.string_of_uint d) = true.
Proof. induction d; simpl; done. Qed.

Lemma digits_shape (n : Z) :
  all_digits (PyFloat.digits n) = true ∧ PyFloat.digits n ≠ "".
Proof.
  unfold PyFloat.digits, NilZero.string_of_uint.
  destruct (N.to_uint (Z.to_N n)) eqn:Hd; try done;
    (split; [apply (string_of_uint_digits (_ u))|done]).
Qed.

Lemma digits_one (n : Z) :
  0 ≤ n < 10 → ∃ d, PyFloat.digits n = String d "" ∧ is_digit d = true.
Proof.
  intros Hn.
  assert (n = 0 ∨ n = 1 ∨ n = 2 ∨ n = 3 ∨ n = 4 ∨ n = 5 ∨ n = 6 ∨ n = 7
          ∨ n = 8 ∨ n = 9) as Hcases by lia.
  repeat (destruct Hcases as [->|Hcases]; [by eexists|]).
  subst. by eexists.
Qed.

Lemma tenths_nonneg (m : positive) (e : Z) : 0 ≤ PyFloat.tenths m e.
Proof.
  unfold PyFloat.tenths. destruct (0 <=? e) eqn:He.
  - apply Z.leb_le in He. pose proof (Z.pow_nonneg 2 e). nia.
  - unfold PyFloat.round_half_even.
    assert (0 < 2 ^ (- e)) by (apply Z.pow_pos_nonneg; lia).
    assert (0 ≤ (10 * Z.pos m) `div` 2 ^ (- e)) by (apply Z.div_pos; lia).
    destruct (_ ?= _); [destruct (Z.even _)|..]; lia.
Qed.

Lemma format_1f_shape (x : spec_float) :
  is_size x → one_decimal (PyFloat.format_1f x).
Proof.
  intros [->|(m & e & -> & _)].
  - by exists "0", "0"%char.
  - unfold PyFloat.format_1f. cbn [PyFloat.sign_str].
    pose proof (tenths_nonneg m e) as Ht.
    destruct (digits_shape (PyFloat.tenths m e `div` 10)) as [Hall Hne].
    destruct (digits_one (PyFloat.tenths m e `mod` 10)) as (d & -> & Hd).
    { apply Z.mod_pos_bound. lia. }
    by exists (PyFloat.digits (PyFloat.tenths m e `div` 10)), d.
Qed.

(** ** The loop of the formatters *)

Lemma of_int_is_size (n : Z) (x : spec_float) :
  0 ≤ n → PyFloat.of_int n = Some x → is_size x.
Proof.
  intros Hn. unfold PyFloat.of_int. destruct n as [|p|p]; [| |lia].
  - intros [= <-]. by left.
  - destruct (round_int_normal p) as [[-> _]|(m & e & -> & Hm & He)]; [done|].
    intros [= <-]. right. exists m, e. split_and!; [done..|lia|lia].
Qed.

Lemma human_readable_loop_spec (us : list string) (x : spec_float) :
  is_size x → last us = Some units_last →
  ∃ k u,
    us !! k = Some u
    ∧ human_readable_loop us x
      = Returns (PyFloat.format_1f (scaled x k) +:+ " " +:+ u)
    ∧ is_size (scaled x k)
    ∧ (PyFloat.ltb (scaled x k) PyFloat.lit_1024 = true ∨ u = units_last)
    ∧ ∀ j, (j < k)%nat → PyFloat.ltb (scaled x j) PyFloat.lit_1024 = false.
Proof.
  revert x. induction us as [|u us IH]; intros x Hx Hlast; [done|].
  cbn [human_readable_loop]. unfold PyFloat.ltb_int, PyFloat.div_int.
  rewrite round_int_1024.
  destruct (PyFloat.ltb x PyFloat.lit_1024) eqn:Hlt; simpl.
  { exists 0%nat, u. split_and!; [done..|by left|lia]. }
  case_bool_decide as Hu.
  { exists 0%nat, u. split_and!; [done..|by right|lia]. }
  destruct Hx as [->|(m & e & -> & Hm & He)]; [done|].
  pose proof (ltb_1024_normal m e Hlt) as He'.
  destruct us as [|u' us]; [by injection Hlast as ->|].
  destruct (IH (PyFloat.div (S754_finite false m e) PyFloat.lit_1024))
    as (k & v & Hk & Hret & Hsize & Hstop & Hbefore).
  { rewrite div_1024_normal by (done || lia).
    right. exists m, (e - 10). split_and!; [done..|lia|lia]. }
  { by rewrite last_cons_cons in Hlast. }
  exists (S k), v. unfold scaled in *. rewrite !Nat.iter_succ_r.
  split_and!; [done..|].
  intros [|j] Hj; [done|]. rewrite Nat.iter_succ_r. apply Hbefore. lia.
Qed.

(** The loop over the five units returns whatever the float is. *)
Lemma human_readable_loop_returns (x : spec_float) :
  ∃ s, human_readable_loop units x = Returns s.
Proof.
  unfold units. cbn [human_readable_loop].
  repeat (destruct (PyFloat.ltb_int _ 1024); [by eexists|]; cbn [orb]).
  by eexists.
Qed.

(** ** The formatters *)

(** C9. [human_size] and [human_readable] do the same on every integer:
    where [float()] accepts the integer both return the same string, and
    where it does not both raise [OverflowError]. *)
Theorem human_size_human_readable (n : Z) :
  human_size n = human_readable n
  ∧ match PyFloat.of_int n with
    | Some _ => ∃ s, human_size n = Returns s ∧ human_readable n = Returns s
    | None => human_size n = Raises "OverflowError"
              ∧ human_readable n = Raises "OverflowError"
    end.
Proof.
  unfold human_size, human_readable.
  destruct (PyFloat.of_int n) as [x|]; [|done].
  rewrite human_loops_agree. split; [done|].
  destruct (human_readable_loop_returns x) as [s ->]. by exists s.
Qed.

(** C7, as the code has it.  [human_readable] never reaches the end of
    its body without a value.  From 2^1024 - 2^970 on, [float()] refuses
    the byte count and the formatter raises [OverflowError].  For every
    non-negative byte count below that, it returns a number with one
    decimal place, a space and one of the five units: the number is the
    count divided by 1024 once for each unit passed, the unit is the first
    at which the number is below 1024, and TB when there is none. *)
Theorem human_readable_format (n : Z) :
  human_readable n ≠ ReturnsNone
  ∧ (2 ^ 1024 - 2 ^ 970 ≤ n → human_readable n = Raises "OverflowError")
  ∧ (0 ≤ n < 2 ^ 1024 - 2 ^ 970 →
     ∃ k u x,
       PyFloat.of_int n = Some x
       ∧ units !! k = Some u
       ∧ human_readable n
         = Returns (PyFloat.format_1f (scaled x k) +:+ " " +:+ u)
       ∧ one_decimal (PyFloat.format_1f (scaled x k))
       ∧ ((k < 4)%nat → PyFloat.ltb (scaled x k) PyFloat.lit_1024 = true)
       ∧ ∀ j, (j < k)%nat →
              PyFloat.ltb (scaled x j) PyFloat.lit_1024 = false).
Proof.
  split_and!.
  - unfold human_readable. destruct (PyFloat.of_int n) as [x|]; [|done].
    by destruct (human_readable_loop_returns x) as [s ->].
  - intros Hn. unfold human_readable.
    destruct (PyFloat.of_int n) as [x|] eqn:Hx; [|done].
    assert (0 < 2 ^ 1024 - 2 ^ 970) by done.
    apply mk_is_Some, of_int_is_Some_iff in Hx; lia.
  - intros [Hn Hlt].
    destruct (proj2 (of_int_is_Some_iff n Hn) Hlt) as [x Hx].
    unfold human_readable. rewrite Hx.
    destruct (human_readable_loop_spec units x)
      as (k & u & Hk & Hret & Hsize & Hstop & Hbefore);
      [by eapply of_int_is_size|done|].
    exists k, u, x. split_and!; [done..|by apply format_1f_shape| |done].
    intros Hk4. destruct Hstop as [?| ->]; [done|].
    do 4 (destruct k as [|k]; [done|]). lia.
Qed.

Lemma human_readable_format_witness :
  ∃ k u x,
    PyFloat.of_int 1536 = Some x
    ∧ units !! k = Some u
    ∧ human_readable 1536
      = Returns (PyFloat.format_1f (scaled x k) +:+ " " +:+ u)
    ∧ one_decimal (PyFloat.format_1f (scaled x k))
    ∧ ((k < 4)%nat → PyFloat.ltb (scaled x k) PyFloat.lit_1024 = true)
    ∧ ∀ j, (j < k)%nat →
           PyFloat.ltb (scaled x j) PyFloat.lit_1024 = false.
Proof.
  destruct (human_readable_format 1536) as (_ & _ & H).
  apply H. split; [lia | reflexivity].
Defined.

(** [float()] refuses 2^1024: neither formatter returns a string for it. *)
Lemma human_readable_overflow :
  0 ≤ 2 ^ 1024
  ∧ human_readable (2 ^ 1024) = Raises "OverflowError"
  ∧ ¬ ∃ s, human_readable (2 ^ 1024) = Returns s.
Proof.
  assert (human_readable (2 ^ 1024) = Raises "OverflowError") as H
    by (by vm_compute).
  split_and!; [lia|done|]. rewrite H. by intros [s ?].
Qed.

Example human_readable_examples :
  human_readable <$> [0; 1023; 1024; 1536; 1048575; 1024 ^ 3; 5 * 1024 ^ 5]
  = Returns <$> ["0.0 B"; "1023.0 B"; "1.0 KB"; "1.5 KB"; "1024.0 KB";
                 "1.0 GB"; "5120.0 TB"].
Proof. by vm_compute. Qed.

Example float_range_examples :
  is_Some (PyFloat.of_int (2 ^ 1024 - 2 ^ 970 - 1))
  ∧ PyFloat.of_int (2 ^ 1024 - 2 ^ 970) = None.
Proof. split; [eexists; vm_compute; reflexivity | by vm_compute]. Qed.

(** The scenarios of the specification. *)
Example scenario_checks :
  gather_loop scenario ∅
  = {| lang_counts := [("Markdown", 1); ("Go", 2)];
       total_files := 3; total_bytes := 900;
       file_sizes := [("README.md", 100); ("src/main.go", 500);
                      ("src/lib/util.go", 300)];
       folder_sizes := [("src", 800); ("src/lib", 300)] |}
  ∧ gather_loop scenario {["lib"]}
    = {| lang_counts := [("Markdown", 1); ("Go", 1)];
         total_files := 2; total_bytes := 600;
         file_sizes := [("README.md", 100); ("src/main.go", 500)];
         folder_sizes := [("src", 500)] |}
  ∧ scan_tree scenario 3 {["lib"]}
    = ["repo/"; "├── src/"; "│   └── main.go"; "└── README.md"]
  ∧ gather_loop (Dir "empty" (Some [])) ∅ = initial
  ∧ scan_tree (Dir "empty" (Some [])) 3 ∅ = ["empty/"].
Proof. by vm_compute. Qed.
